(** * H4x_imageX: the Payload Encoder and the Edit Orchestrator

    A shallow embedding of [src/utils/fileUtils.ts] (the Payload Encoder,
    [fileToGenerativePart]) and of the [App] component of the main view
    (the Edit Orchestrator: [handleFileSelect], [handleGenerate],
    [handleDownload] and the controls that trigger them).

    JavaScript strings are modelled by [string]: sequences of code units,
    here the units below 256 (a data URL is ASCII).  [undefined] and [null]
    are [None]. *)

From Stdlib Require Import Bool List Arith ZArith Lia.
From Stdlib Require Import Strings.Ascii Strings.String.
From Stdlib Require Import Numbers.DecimalString Numbers.DecimalPos Numbers.DecimalZ.
Import ListNotations.

Open Scope string_scope.

(** ** JavaScript string primitives used by the sources *)

Module Js.

(** [!x] for a value that is a string or [undefined]: the empty string and
    [undefined] are the falsy ones. *)
Definition falsy (x : option string) : bool :=
  match x with
  | None => true
  | Some s => s =? ""
  end.

(** [x || d] for a string-or-undefined [x] and a string [d]. *)
Definition or_else (x : option string) (d : string) : string :=
  match x with
  | None => d
  | Some s => if s =? "" then d else s
  end.

(** [s.split(sep)] for a one-character separator and no limit: the pieces
    between all occurrences of [sep]; never an empty array. *)
Fixpoint split (sep : ascii) (s : string) : list string :=
  match s with
  | "" => [""]
  | String c r =>
      if Ascii.eqb c sep then "" :: split sep r
      else match split sep r with
           | [] => [String c ""]
           | piece :: pieces => String c piece :: pieces
           end
  end.

(** The characters the regular-expression atom [.] does not match (no [s]
    flag): the line terminators, of which LF and CR are below 256. *)
Definition line_terminator (c : ascii) : bool :=
  Ascii.eqb c "010" || Ascii.eqb c "013".

(** [(.*?);] tried at one position: the lazy star takes the fewest
    characters, none of them a line terminator, that let [;] match next.
    The result is what group 1 captured. *)
Fixpoint lazy_dots_then_semicolon (s : string) : option string :=
  match s with
  | "" => None
  | String c r =>
      if Ascii.eqb c ";" then Some ""
      else if line_terminator c then None
      else option_map (String c) (lazy_dots_then_semicolon r)
  end.

(** [s.match(/:(.*?);/)]: the leftmost position where the whole pattern
    matches.  [None] is [null]; otherwise the pair is the match array,
    element 0 (the matched text) and element 1 (the group). *)
Fixpoint match_colon_group_semicolon (s : string) : option (string * string) :=
  match s with
  | "" => None
  | String c r =>
      if Ascii.eqb c ":" then
        match lazy_dots_then_semicolon r with
        | Some g => Some (":" ++ g ++ ";", g)
        | None => match_colon_group_semicolon r
        end
      else match_colon_group_semicolon r
  end.

(** A number in a template literal: an integer prints in decimal, with a
    minus sign when negative. *)
Definition number_to_string (n : Z) : string :=
  NilZero.string_of_int (Z.to_int n).

End Js.

(** ** Promises and rejection reasons *)

(** The event a [FileReader] hands to [onerror]; it has no [message]. *)
Record ProgressEvent : Type := mkProgressEvent {
  pe_type : string;
  pe_loaded : N;
  pe_total : N
}.

(** An object a promise of this program is rejected with: an [Error] object
    (its message and its optional [cause]) or the reader's event itself. *)
Inductive Reason : Type :=
| ErrorObj (message : string) (cause : option ProgressEvent)
| HostEvent (ev : ProgressEvent).

(** What [catch (e: any)] may be handed: such an object, or [null] or
    [undefined], which the outbound call, no part of these sources, is free
    to reject with. *)
Inductive Caught : Type :=
| Obj (e : Reason)
| Nullish.

(** [new Error(msg)] *)
Definition new_Error (msg : string) : Reason := ErrorObj msg None.

(** [e.message] *)
Definition message (e : Reason) : option string :=
  match e with
  | ErrorObj m _ => Some m
  | HostEvent _ => None
  end.

Inductive Settled (A : Type) : Type :=
| Resolved (v : A)
| Rejected (e : Reason).
Arguments Resolved {A} v.
Arguments Rejected {A} e.

(** How the promise of [editImageWithGemini] settles: with a string, with
    an object as its reason, or with [null] or [undefined] as its reason. *)
Inductive ServiceOutcome : Type :=
| Settles (outcome : Settled string)
| RejectsNullish.

(** ** The Payload Encoder: src/utils/fileUtils.ts *)

Record GenerativePart : Type := mkPart {
  mimeType : string;
  data : string
}.

(** [reader.result] when [onload] runs. *)
Inductive ReaderResult : Type :=
| ResultString (s : string)
| ResultArrayBuffer (bytes : list N)
| ResultNull.

(** How the read started by [reader.readAsDataURL(file)] ends. *)
Inductive ReaderOutcome : Type :=
| Loaded (result : ReaderResult)
| ReadError (error : ProgressEvent).

Definition msg_read_failed : string := "Failed to read file as data URL.".
Definition msg_invalid_format : string := "Invalid data URL format.".
Definition msg_no_mime : string := "Could not extract MIME type from data URL.".

(** The body of [reader.onload]. *)
Definition onload (result : ReaderResult) : Settled GenerativePart :=
  match result with
  | ResultString s =>
      let parts := Js.split "," s in
      let header := nth_error parts 0 in
      let data := nth_error parts 1 in
      match header, data with
      | Some header, Some data =>
          if (header =? "") || (data =? "") then
            Rejected (new_Error msg_invalid_format)
          else
            match Js.match_colon_group_semicolon header with
            | None => Rejected (new_Error msg_no_mime)
            | Some (_, group1) =>
                if group1 =? "" then Rejected (new_Error msg_no_mime)
                else Resolved {| mimeType := group1; data := data |}
            end
      | _, _ => Rejected (new_Error msg_invalid_format)
      end
  | _ => Rejected (new_Error msg_read_failed)
  end.

(** [fileToGenerativePart(file)], as a function of how the host's read of
    [file] ends: [onload] settles the promise, or [onerror] rejects it with
    the event it was given. *)
Definition fileToGenerativePart (read : ReaderOutcome) : Settled GenerativePart :=
  match read with
  | Loaded result => onload result
  | ReadError error => Rejected (HostEvent error)
  end.

(** ** The Edit Orchestrator: the [App] component *)

(** A [File] is opaque to this program; only the host reads it. *)
Record File : Type := mkFile {
  file_name : string;
  file_type : string;
  file_size : N
}.

(** The six [useState] cells of [App], as one render sees them. *)
Record AppState : Type := mkAppState {
  originalImageFile : option File;
  originalImageDataUrl : option string;
  editedImageData : option string;
  prompt : string;
  isLoading : bool;
  error : option string
}.

Definition initial_state : AppState :=
  {| originalImageFile := None; originalImageDataUrl := None;
     editedImageData := None; prompt := ""; isLoading := false;
     error := None |}.

Inductive Setter : Type :=
| setOriginalImageFile (file : option File)
| setOriginalImageDataUrl (url : option string)
| setEditedImageData (d : option string)
| setPrompt (text : string)
| setIsLoading (b : bool)
| setError (e : option string).

Definition apply_setter (u : Setter) (st : AppState) : AppState :=
  match u with
  | setOriginalImageFile f =>
      mkAppState f (originalImageDataUrl st) (editedImageData st) (prompt st)
                 (isLoading st) (error st)
  | setOriginalImageDataUrl url =>
      mkAppState (originalImageFile st) url (editedImageData st) (prompt st)
                 (isLoading st) (error st)
  | setEditedImageData d =>
      mkAppState (originalImageFile st) (originalImageDataUrl st) d (prompt st)
                 (isLoading st) (error st)
  | setPrompt text =>
      mkAppState (originalImageFile st) (originalImageDataUrl st)
                 (editedImageData st) text (isLoading st) (error st)
  | setIsLoading b =>
      mkAppState (originalImageFile st) (originalImageDataUrl st)
                 (editedImageData st) (prompt st) b (error st)
  | setError e =>
      mkAppState (originalImageFile st) (originalImageDataUrl st)
                 (editedImageData st) (prompt st) (isLoading st) e
  end.

(** What a handler does, in order: calls of state setters, [console.error],
    and the two awaited calls, each followed by the rest of the handler as a
    function of how the awaited promise settles. *)
Inductive Async : Type :=
| Return
| Do (u : Setter) (k : Async)
| console_error (e : Caught) (k : Async)
| await_fileToGenerativePart (file : File) (k : Settled GenerativePart -> Async)
| await_editImageWithGemini (base64Data mime instruction : string)
                            (k : ServiceOutcome -> Async).

Notation "u ;; k" := (Do u k) (at level 61, right associativity).

Definition msg_validation : string :=
  "Please upload an image and provide a modification prompt.".
Definition msg_unknown : string :=
  "An unknown error occurred while communicating with the AI.".

(** The [finally] block of [handleGenerate]. *)
Definition handleGenerate_finally : Async :=
  setIsLoading false ;; Return.

(** The [catch] block of [handleGenerate], followed by [finally].  On
    [null] or [undefined] the access [e.message] throws: [setError] is not
    reached, and [finally] runs all the same. *)
Definition handleGenerate_catch (e : Caught) : Async :=
  console_error e
    match e with
    | Obj e =>
        setError (Some (Js.or_else (message e) msg_unknown)) ;;
        handleGenerate_finally
    | Nullish => handleGenerate_finally
    end.

(** [handleGenerate], closed over the state of the render that created it. *)
Definition handleGenerate (render : AppState) : Async :=
  match originalImageFile render with
  | None => setError (Some msg_validation) ;; Return
  | Some file =>
      if prompt render =? "" then setError (Some msg_validation) ;; Return
      else
        setIsLoading true ;;
        setError None ;;
        setEditedImageData None ;;
        await_fileToGenerativePart file (fun settled =>
          match settled with
          | Rejected e => handleGenerate_catch (Obj e)
          | Resolved imagePart =>
              await_editImageWithGemini
                (data imagePart) (mimeType imagePart) (prompt render)
                (fun settled =>
                   match settled with
                   | Settles (Rejected e) => handleGenerate_catch (Obj e)
                   | RejectsNullish => handleGenerate_catch Nullish
                   | Settles (Resolved resultBase64) =>
                       setEditedImageData
                         (Some ("data:" ++ mimeType imagePart ++ ";base64,"
                                ++ resultBase64)) ;;
                       handleGenerate_finally
                   end)
          end)
  end.

(** The synchronous part of [handleFileSelect]; the preview reader it starts
    ends later, in [onloadend]. *)
Definition handleFileSelect (file : File) : Async :=
  setOriginalImageFile (Some file) ;;
  setEditedImageData None ;;
  setError None ;;
  Return.

(** [reader.onloadend] of the preview reader. *)
Definition preview_onloadend (result : option string) : Async :=
  setOriginalImageDataUrl result ;; Return.

(** What [handleDownload] does to the document. *)
Inductive DomEffect : Type :=
| createElement_a
| set_href (url : string)
| set_download (filename : string)
| appendChild
| click
| removeChild.

(** [handleDownload], with [now] the value of [Date.now()]. *)
Definition handleDownload (render : AppState) (now : Z) : list DomEffect :=
  if Js.falsy (editedImageData render) then []
  else
    match editedImageData render with
    | None => []
    | Some url =>
        [ createElement_a;
          set_href url;
          set_download ("h4x_edit_" ++ Js.number_to_string now ++ ".png");
          appendChild;
          click;
          removeChild ]
    end.

(** [disabled=] of the Generate button. *)
Definition generate_disabled (render : AppState) : bool :=
  isLoading render
  || match originalImageFile render with None => true | Some _ => false end
  || (prompt render =? "").

(** The condition under which the Download button is rendered. *)
Definition download_rendered (render : AppState) : bool :=
  negb (isLoading render)
  && Js.falsy (error render)
  && negb (Js.falsy (editedImageData render)).

(** ** The running application

    A handler runs to completion up to its next [await]; the setter calls of
    one such run are committed together, and the next render sees their sum
    (React batches the updates of one task).  Between two runs the host may
    deliver any event: a user gesture, the end of a file read, the settling
    of the outbound call. *)

(** A handler stopped at an [await]: the rest of it. *)
Inductive Suspended : Type :=
| AwaitingEncoder (k : Settled GenerativePart -> Async)
| AwaitingService (k : ServiceOutcome -> Async).

(** A call that left the component. *)
Inductive Call : Type :=
| call_fileToGenerativePart (file : File)
| call_editImageWithGemini (base64Data mime instruction : string).

Record World : Type := mkWorld {
  ui : AppState;                 (* the committed state *)
  inflight : list Suspended;     (* handlers stopped at an await *)
  previewReads : nat;            (* preview readers that have not ended *)
  calls : list Call;             (* every call made so far, oldest first *)
  console : list Caught;         (* what console.error was given *)
  dom : list DomEffect           (* what handleDownload did so far *)
}.

Definition initial_world : World :=
  {| ui := initial_state; inflight := []; previewReads := 0; calls := [];
     console := []; dom := [] |}.

(** One run of a handler, from where it stands to its next [await] or to
    its end. *)
Fixpoint run (p : Async) (w : World) : World * option Suspended :=
  match p with
  | Return => (w, None)
  | Do u k =>
      run k (mkWorld (apply_setter u (ui w)) (inflight w) (previewReads w)
                     (calls w) (console w) (dom w))
  | console_error e k =>
      run k (mkWorld (ui w) (inflight w) (previewReads w) (calls w)
                     (console w ++ [e]) (dom w))
  | await_fileToGenerativePart file k =>
      (mkWorld (ui w) (inflight w) (previewReads w)
               (calls w ++ [call_fileToGenerativePart file])
               (console w) (dom w),
       Some (AwaitingEncoder k))
  | await_editImageWithGemini base64Data mime instruction k =>
      (mkWorld (ui w) (inflight w) (previewReads w)
               (calls w ++ [call_editImageWithGemini base64Data mime instruction])
               (console w) (dom w),
       Some (AwaitingService k))
  end.

Definition with_inflight (l : list Suspended) (w : World) : World :=
  mkWorld (ui w) l (previewReads w) (calls w) (console w) (dom w).

Definition opt_to_list {A : Type} (o : option A) : list A :=
  match o with
  | None => []
  | Some a => [a]
  end.

(** Invoke a handler: run it, and keep what is left of it, if anything. *)
Definition invoke (p : Async) (w : World) : World :=
  let (w', rest) := run p w in
  with_inflight (inflight w' ++ opt_to_list rest) w'.

(** Continue the [i]-th stopped handler with [p]; what is left of it takes
    its place. *)
Definition continue (i : nat) (p : Async) (w : World) : World :=
  let (w', rest) := run p w in
  with_inflight (firstn i (inflight w') ++ opt_to_list rest
                 ++ skipn (S i) (inflight w')) w'.

(** [handleGenerate] as the current render made it, invoked. *)
Definition invoke_handleGenerate (w : World) : World :=
  invoke (handleGenerate (ui w)) w.

Inductive Event : Type :=
| SelectFile (file : File)          (* the file input changes, or a drop *)
| PreviewLoadEnd (result : option string)
| TypePrompt (text : string)        (* the textarea changes *)
| ClickGenerate
| ClickDownload (now : Z)
| EncoderReadEnds (i : nat) (read : ReaderOutcome)
| ServiceSettles (i : nat) (outcome : Settled string)
| ServiceRejectsNullish (i : nat).  (* the call rejects with null or undefined *)

(** The reaction to one event; [None] when the host cannot deliver it (no
    such read or call is pending).  A click on a disabled button, or where
    no button is rendered, reaches no handler. *)
Definition step (w : World) (e : Event) : option World :=
  match e with
  | SelectFile file =>
      let w' := invoke (handleFileSelect file) w in
      Some (mkWorld (ui w') (inflight w') (S (previewReads w')) (calls w')
                    (console w') (dom w'))
  | PreviewLoadEnd result =>
      match previewReads w with
      | O => None
      | S n =>
          Some (invoke (preview_onloadend result)
                  (mkWorld (ui w) (inflight w) n (calls w) (console w) (dom w)))
      end
  | TypePrompt text => Some (invoke (setPrompt text ;; Return) w)
  | ClickGenerate =>
      if generate_disabled (ui w) then Some w
      else Some (invoke_handleGenerate w)
  | ClickDownload now =>
      if download_rendered (ui w) then
        Some (mkWorld (ui w) (inflight w) (previewReads w) (calls w)
                      (console w) (dom w ++ handleDownload (ui w) now))
      else Some w
  | EncoderReadEnds i read =>
      match nth_error (inflight w) i with
      | Some (AwaitingEncoder k) =>
          Some (continue i (k (fileToGenerativePart read)) w)
      | _ => None
      end
  | ServiceSettles i outcome =>
      match nth_error (inflight w) i with
      | Some (AwaitingService k) => Some (continue i (k (Settles outcome)) w)
      | _ => None
      end
  | ServiceRejectsNullish i =>
      match nth_error (inflight w) i with
      | Some (AwaitingService k) => Some (continue i (k RejectsNullish) w)
      | _ => None
      end
  end.

Fixpoint steps (w : World) (es : list Event) : option World :=
  match es with
  | [] => Some w
  | e :: es' =>
      match step w e with
      | None => None
      | Some w' => steps w' es'
      end
  end.

Inductive reachable : World -> Prop :=
| reachable_initial : reachable initial_world
| reachable_step w e w' : reachable w -> step w e = Some w' -> reachable w'.

(** The events a user can cause; the host causes the others. *)
Definition user_event (e : Event) : bool :=
  match e with
  | SelectFile _ | TypePrompt _ | ClickGenerate | ClickDownload _ => true
  | PreviewLoadEnd _ | EncoderReadEnds _ _ | ServiceSettles _ _
  | ServiceRejectsNullish _ => false
  end.

(** ** Vocabulary of the specification *)

(** [s] contains the character [c]. *)
Fixpoint has_char (c : ascii) (s : string) : bool :=
  match s with
  | "" => false
  | String x r => Ascii.eqb x c || has_char c r
  end.

Fixpoint has_line_terminator (s : string) : bool :=
  match s with
  | "" => false
  | String x r => Js.line_terminator x || has_line_terminator r
  end.

(** The encoded string ["data:<mime>;base64,<payload>"]. *)
Definition data_url (mime payload : string) : string :=
  "data:" ++ mime ++ ";base64," ++ payload.

(** A MIME type as an encoded string carries it: not empty, and free of the
    characters that delimit it there. *)
Definition well_formed_mime (mime : string) : bool :=
  negb (mime =? "") && negb (has_char "," mime) && negb (has_char ";" mime)
  && negb (has_line_terminator mime).

(** A payload as an encoded string carries it: not empty, without a comma
    (the base-64 alphabet has none). *)
Definition well_formed_payload (payload : string) : bool :=
  negb (payload =? "") && negb (has_char "," payload).

(** The entire substring after the first [sep] of [s]; [None] when [s] has
    no [sep]. *)
Fixpoint after_first (sep : ascii) (s : string) : option string :=
  match s with
  | "" => None
  | String x r => if Ascii.eqb x sep then Some r else after_first sep r
  end.

(** The substring before the first [sep] of [s]; all of [s] when it has no
    [sep]. *)
Fixpoint before_first (sep : ascii) (s : string) : string :=
  match s with
  | "" => ""
  | String x r => if Ascii.eqb x sep then "" else String x (before_first sep r)
  end.

(** The header of an input: what precedes its first comma. *)
Definition header_of (s : string) : string := before_first "," s.

(** The payload of an input is empty: nothing follows its first comma. *)
Definition empty_payload (s : string) : bool :=
  match after_first "," s with
  | Some rest => rest =? ""
  | None => false
  end.

(** The MIME type of an input is empty: the first [:] of its header is
    followed at once by [;]. *)
Definition empty_mime (s : string) : bool :=
  match after_first ":" (header_of s) with
  | Some (String c _) => Ascii.eqb c ";"
  | _ => false
  end.

(** The piece between the first comma of an input and its second one. *)
Definition data_piece (s : string) : option string :=
  option_map (before_first ",") (after_first "," s).

(** ASCII lower case, to compare a message with a phrase of the
    specification whatever the capitals. *)
Definition lower (c : ascii) : ascii :=
  let n := nat_of_ascii c in
  if ((65 <=? n)%nat && (n <=? 90)%nat)%bool then ascii_of_nat (n + 32) else c.

Fixpoint lower_string (s : string) : string :=
  match s with
  | "" => ""
  | String c r => String (lower c) (lower_string r)
  end.

Fixpoint is_infix (p s : string) : bool :=
  prefix p s || match s with
                | "" => false
                | String _ r => is_infix p r
                end.

(** The message [msg] carries the phrase [phrase], capitals apart. *)
Definition describes (phrase msg : string) : bool :=
  is_infix (lower_string phrase) (lower_string msg).

(** *** Phases of a generate cycle *)

(** The rest of [handleGenerate] after its second [await]. *)
Definition after_service (imagePart : GenerativePart)
    (settled : ServiceOutcome) : Async :=
  match settled with
  | Settles (Rejected e) => handleGenerate_catch (Obj e)
  | RejectsNullish => handleGenerate_catch Nullish
  | Settles (Resolved resultBase64) =>
      setEditedImageData
        (Some ("data:" ++ mimeType imagePart ++ ";base64," ++ resultBase64)) ;;
      handleGenerate_finally
  end.

(** The rest of [handleGenerate] after its first [await]; [instruction] is
    the prompt of the render the handler was made in. *)
Definition after_encoder (instruction : string)
    (settled : Settled GenerativePart) : Async :=
  match settled with
  | Rejected e => handleGenerate_catch (Obj e)
  | Resolved imagePart =>
      await_editImageWithGemini (data imagePart) (mimeType imagePart)
        instruction (after_service imagePart)
  end.

(** The busy window: the loader shows, nothing is displayed, a file is
    selected, and exactly the handler [pending] is stopped at an await. *)
Definition Busy (pending : Suspended) (w : World) : Prop :=
  isLoading (ui w) = true
  /\ editedImageData (ui w) = None
  /\ error (ui w) = None
  /\ originalImageFile (ui w) <> None
  /\ inflight w = [pending].

(** Waiting for the encoder, the prompt [instruction] having been taken. *)
Definition Encoding (instruction : string) : World -> Prop :=
  Busy (AwaitingEncoder (after_encoder instruction)).

(** Waiting for the service, the encoder having yielded [imagePart]. *)
Definition Calling (imagePart : GenerativePart) : World -> Prop :=
  Busy (AwaitingService (after_service imagePart)).

(** No request is outstanding, not both a result and an error are held, and
    a result that is held is not the empty string. *)
Definition Settled_state (w : World) : Prop :=
  isLoading (ui w) = false
  /\ inflight w = []
  /\ (editedImageData (ui w) = None \/ error (ui w) = None)
  /\ (forall url, editedImageData (ui w) = Some url -> url <> "").

(** The events that do not settle a request. *)
Definition bystander (e : Event) : bool :=
  match e with
  | EncoderReadEnds _ _ | ServiceSettles _ _ | ServiceRejectsNullish _ => false
  | _ => true
  end.

(** The three outcomes a session may hold. *)
Definition no_result (st : AppState) : Prop :=
  editedImageData st = None /\ error st = None.
Definition success_result (st : AppState) : Prop :=
  editedImageData st <> None.
Definition error_result (st : AppState) : Prop :=
  error st <> None.

Definition exactly_one (A B C : Prop) : Prop :=
  (A /\ ~ B /\ ~ C) \/ (~ A /\ B /\ ~ C) \/ (~ A /\ ~ B /\ C).



(** What every reachable world is in. *)
Definition Phase (w : World) : Prop :=
  Settled_state w
  \/ (exists instruction, Encoding instruction w)
  \/ (exists imagePart, Calling imagePart w).

(** *** A sample session *)

Definition photo : File := mkFile "photo.jpg" "image/jpeg" 48213.

Definition photo_read : ReaderOutcome :=
  Loaded (ResultString "data:image/jpeg;base64,LzlqLzRB").

(** The photo selected and the instruction typed; the preview is still
    being read. *)
Definition ready_world : World :=
  mkWorld (mkAppState (Some photo) None None "make it neon" false None)
          [] 1 [] [] [].

(** The session after a successful cycle from [ready_world]. *)
Definition success_world : World :=
  mkWorld (mkAppState (Some photo) None
             (Some "data:image/jpeg;base64,iVBORw0KG") "make it neon"
             false None)
          [] 1
          [call_fileToGenerativePart photo;
           call_editImageWithGemini "LzlqLzRB" "image/jpeg" "make it neon"]
          [] [].

(** ** The rest of the view *)

(** *** The output column of [App] *)

(** The four conditional blocks of the output column. *)
Inductive OutputBlock : Type :=
| LoaderBlock
| ErrorBlock (msg : string)
| ResultBlock (url : string)      (* the image and the Download button *)
| PlaceholderBlock.

(** The blocks the output column renders, top to bottom: each
    [{cond && <block>}] renders its block when [cond] is truthy. *)
Definition render_output (render : AppState) : list OutputBlock :=
  ((if isLoading render then [LoaderBlock] else [])
   ++ (match error render with
       | Some msg => if msg =? "" then [] else [ErrorBlock msg]
       | None => []
       end)
   ++ (if negb (isLoading render) && Js.falsy (error render) then
         match editedImageData render with
         | Some url => if url =? "" then [] else [ResultBlock url]
         | None => []
         end
       else [])
   ++ (if negb (isLoading render) && Js.falsy (error render)
          && Js.falsy (editedImageData render)
       then [PlaceholderBlock] else []))%list.

(** *** [ImageUploader] *)

(** What the handlers of [ImageUploader] do with the event and the props. *)
Inductive UploaderEffect : Type :=
| preventDefault
| stopPropagation
| onFileSelect (file : File).

(** [files && files[0]] for a [FileList] that may be [null]. *)
Definition first_file (files : option (list File)) : option File :=
  match files with
  | Some (file :: _) => Some file
  | _ => None
  end.

(** [handleFileChange], with [files] the [event.target.files]. *)
Definition handleFileChange (files : option (list File)) : list UploaderEffect :=
  match first_file files with
  | Some file => [onFileSelect file]
  | None => []
  end.

(** [handleDrop], with [files] the [event.dataTransfer.files]. *)
Definition handleDrop (files : option (list File)) : list UploaderEffect :=
  preventDefault :: stopPropagation ::
  match first_file files with
  | Some file => [onFileSelect file]
  | None => []
  end.

Definition handleDragOver : list UploaderEffect :=
  [preventDefault; stopPropagation].

(** What the drop zone shows: the preview once there is one, else the
    invitation to upload. *)
Inductive UploaderView : Type :=
| PreviewImage (src : string)
| UploadInvitation.

Definition render_uploader (originalImageDataUrl : option string) : UploaderView :=
  match originalImageDataUrl with
  | Some url => if url =? "" then UploadInvitation else PreviewImage url
  | None => UploadInvitation
  end.

(** The effects of an uploader handler on the application: [App] passes
    [handleFileSelect] as [onFileSelect]. *)
Fixpoint perform (effects : list UploaderEffect) (w : World) : option World :=
  match effects with
  | [] => Some w
  | onFileSelect file :: rest =>
      match step w (SelectFile file) with
      | Some w' => perform rest w'
      | None => None
      end
  | _ :: rest => perform rest w
  end.

(** *** The log of calls *)

Definition is_service_call (c : Call) : bool :=
  match c with
  | call_editImageWithGemini _ _ _ => true
  | call_fileToGenerativePart _ => false
  end.

Definition service_calls (log : list Call) : nat :=
  List.length (filter is_service_call log).

Definition encoder_calls (log : list Call) : nat :=
  List.length (filter (fun c => negb (is_service_call c)) log).

(** Reading a log from its oldest call, with [after_encoder_call] telling
    whether the call just read was one of the encoder: every call of the
    service comes directly after a call of the encoder. *)
Fixpoint service_follows_encoder (after_encoder_call : bool) (log : list Call)
  : bool :=
  match log with
  | [] => true
  | call_fileToGenerativePart _ :: rest => service_follows_encoder true rest
  | call_editImageWithGemini _ _ _ :: rest =>
      after_encoder_call && service_follows_encoder false rest
  end.

(** A call of the service with well-formed image data and MIME type and
    an instruction that is not empty. *)
Definition call_filled (c : Call) : Prop :=
  match c with
  | call_fileToGenerativePart _ => True
  | call_editImageWithGemini base64Data mime instruction =>
      well_formed_payload base64Data = true
      /\ well_formed_mime mime = true
      /\ instruction <> ""
  end.

(** A log made of whole cycles: the encoder alone (it failed, or the cycle
    is under way), or the encoder and then the service with what the
    encoder yielded. *)
Inductive Cycles : list Call -> Prop :=
| Cycles_nil : Cycles []
| Cycles_encoder log file :
    Cycles log -> Cycles (log ++ [call_fileToGenerativePart file])
| Cycles_service log file imagePart instruction :
    Cycles log ->
    well_formed_payload (data imagePart) = true ->
    well_formed_mime (mimeType imagePart) = true ->
    instruction <> "" ->
    Cycles (log ++ [call_fileToGenerativePart file;
                    call_editImageWithGemini (data imagePart)
                      (mimeType imagePart) instruction]).

(** The messages a failure of the encoder can leave in the session. *)
Definition encoder_failure_messages : list string :=
  [msg_read_failed; msg_invalid_format; msg_no_mime; msg_unknown].

(** The name [handleDownload] gives the file. *)
Definition download_name (now : Z) : string :=
  "h4x_edit_" ++ Js.number_to_string now ++ ".png".

(** The session and its log of calls agree: a stored error is not empty; the
    log is made of whole cycles, the last of which is under way while a
    request is outstanding. *)
Definition Accounted (w : World) : Prop :=
  (forall msg, error (ui w) = Some msg -> msg <> "")
  /\ ((Settled_state w /\ Cycles (calls w))
      \/ (exists instruction log file,
            instruction <> "" /\ Encoding instruction w
            /\ calls w = (log ++ [call_fileToGenerativePart file])%list
            /\ Cycles log)
      \/ (exists imagePart, Calling imagePart w /\ Cycles (calls w))).

(** Another file, to select while the photo is being edited. *)
Definition sketch : File := mkFile "sketch.png" "image/png" 1024.

(** ** Examples *)

Example split_two_commas :
  Js.split "," "data:image/png;base64,AAAA,BBBB" = ["data:image/png;base64"; "AAAA"; "BBBB"].
Proof. reflexivity. Qed.

Example split_no_comma : Js.split "," "abc" = ["abc"].
Proof. reflexivity. Qed.

Example encoder_jpeg :
  fileToGenerativePart (Loaded (ResultString "data:image/jpeg;base64,LzlqLzRB"))
  = Resolved {| mimeType := "image/jpeg"; data := "LzlqLzRB" |}.
Proof. reflexivity. Qed.

Example number_to_string_examples :
  Js.number_to_string 1730505600000 = "1730505600000" /\
  Js.number_to_string 0 = "0" /\ Js.number_to_string (-5) = "-5".
Proof. repeat split; reflexivity. Qed.

(** ** Strings: splitting and matching *)

Section StringFacts.

Variable sep : ascii.

Lemma append_assoc (a b c : string) : (a ++ b) ++ c = a ++ (b ++ c).
Proof. induction a as [|x a IH]; simpl; [reflexivity | now rewrite IH]. Qed.

Lemma append_nil_r (a : string) : a ++ "" = a.
Proof. induction a as [|x a IH]; simpl; [reflexivity | now rewrite IH]. Qed.

Lemma has_char_app (a b : string) :
  has_char sep (a ++ b) = has_char sep a || has_char sep b.
Proof.
  induction a as [|x a IH]; simpl; [reflexivity|].
  now rewrite IH, orb_assoc.
Qed.

Lemma split_not_nil (s : string) : Js.split sep s <> [].
Proof.
  induction s as [|x s IH]; simpl; [discriminate|].
  destruct (Ascii.eqb x sep); [discriminate|].
  destruct (Js.split sep s); discriminate.
Qed.

Lemma split_without_sep (s : string) :
  has_char sep s = false -> Js.split sep s = [s].
Proof.
  induction s as [|x s IH]; simpl; [reflexivity|].
  intros H. apply orb_false_elim in H as [Hx Hs].
  rewrite Hx, (IH Hs). reflexivity.
Qed.

Lemma split_at_first_sep (a b : string) :
  has_char sep a = false ->
  Js.split sep (a ++ String sep b) = a :: Js.split sep b.
Proof.
  induction a as [|x a IH]; simpl.
  - intros _. now rewrite Ascii.eqb_refl.
  - intros H. apply orb_false_elim in H as [Hx Ha].
    rewrite Hx, (IH Ha). reflexivity.
Qed.

(** A string either has no [sep], or is cut at its first one. *)
Lemma first_sep_cases (s : string) :
  (has_char sep s = false /\ before_first sep s = s
   /\ after_first sep s = None)
  \/ (exists a b, s = a ++ String sep b /\ has_char sep a = false
                  /\ before_first sep s = a /\ after_first sep s = Some b).
Proof.
  induction s as [|x s IH]; simpl.
  - left. auto.
  - destruct (Ascii.eqb x sep) eqn:Hx.
    + right. apply Ascii.eqb_eq in Hx. subst x.
      exists "", s. simpl. auto.
    + destruct IH as [(Hn & Hb & Ha) | (a & b & -> & Hn & Hb & Ha)].
      * left. simpl. rewrite Hb. auto.
      * right. exists (String x a), b. simpl. rewrite Hx, Hn, Hb. auto.
Qed.

Lemma before_first_app (a b : string) :
  has_char sep a = false -> before_first sep (a ++ String sep b) = a.
Proof.
  induction a as [|x a IH]; simpl.
  - now rewrite Ascii.eqb_refl.
  - intros H. apply orb_false_elim in H as [Hx Ha].
    now rewrite Hx, (IH Ha).
Qed.

Lemma before_first_without_sep (s : string) :
  has_char sep s = false -> before_first sep s = s.
Proof.
  induction s as [|x s IH]; simpl; [reflexivity|].
  intros H. apply orb_false_elim in H as [Hx Hs].
  now rewrite Hx, (IH Hs).
Qed.

Lemma has_char_before_first (s : string) :
  has_char sep (before_first sep s) = false.
Proof.
  induction s as [|x s IH]; simpl; [reflexivity|].
  destruct (Ascii.eqb x sep) eqn:Hx; simpl; [reflexivity|].
  now rewrite Hx, IH.
Qed.

(** The first two pieces of a split: the text before the first [sep], and
    the text between the first and the second. *)
Lemma split_first_two (s : string) :
  nth_error (Js.split sep s) 0 = Some (before_first sep s)
  /\ nth_error (Js.split sep s) 1
     = option_map (before_first sep) (after_first sep s).
Proof.
  destruct (first_sep_cases s) as [(Hn & Hb & Ha) | (a & b & -> & Hn & Hb & Ha)].
  - rewrite (split_without_sep _ Hn), Hb, Ha. simpl. auto.
  - rewrite (split_at_first_sep _ _ Hn), Hb, Ha. simpl. split; [reflexivity|].
    destruct (first_sep_cases b) as [(Hn' & Hb' & _) | (a' & b' & -> & Hn' & Hb' & _)].
    + rewrite (split_without_sep _ Hn'), Hb'. reflexivity.
    + rewrite (split_at_first_sep _ _ Hn'), Hb'. reflexivity.
Qed.

End StringFacts.

Lemma after_first_app (sep : ascii) (a b : string) :
  has_char sep a = false -> after_first sep (a ++ String sep b) = Some b.
Proof.
  induction a as [|x a IH]; simpl.
  - now rewrite Ascii.eqb_refl.
  - intros H. apply orb_false_elim in H as [Hx Ha]. now rewrite Hx, (IH Ha).
Qed.

Lemma after_first_without_sep (sep : ascii) (s : string) :
  has_char sep s = false -> after_first sep s = None.
Proof.
  induction s as [|x s IH]; simpl; [reflexivity|].
  intros H. apply orb_false_elim in H as [Hx Hs]. now rewrite Hx, (IH Hs).
Qed.

Lemma lazy_dots_sound (s g : string) :
  Js.lazy_dots_then_semicolon s = Some g ->
  exists post, s = g ++ String ";" post
               /\ has_char ";" g = false /\ has_line_terminator g = false.
Proof.
  revert g. induction s as [|x s IH]; simpl; intros g H; [discriminate|].
  destruct (Ascii.eqb x ";") eqn:Hx.
  - injection H as <-. apply Ascii.eqb_eq in Hx. subst x.
    exists s. auto.
  - destruct (Js.line_terminator x) eqn:Hlt; [discriminate|].
    destruct (Js.lazy_dots_then_semicolon s) as [g'|]; [|discriminate].
    injection H as <-.
    destruct (IH g' eq_refl) as (post & -> & Hs & Hl).
    exists post. simpl. rewrite Hx, Hlt, Hs, Hl. auto.
Qed.

Lemma lazy_dots_complete (g post : string) :
  has_char ";" g = false -> has_line_terminator g = false ->
  Js.lazy_dots_then_semicolon (g ++ String ";" post) = Some g.
Proof.
  induction g as [|x g IH]; simpl; [reflexivity|].
  intros H1 H2.
  apply orb_false_elim in H1 as [Hx Hg].
  apply orb_false_elim in H2 as [Hlt Hl].
  now rewrite Hx, Hlt, (IH Hg Hl).
Qed.

Lemma match_sound (s whole g : string) :
  Js.match_colon_group_semicolon s = Some (whole, g) ->
  exists pre post, s = pre ++ String ":" (g ++ String ";" post)
                   /\ whole = ":" ++ g ++ ";"
                   /\ has_char ";" g = false /\ has_line_terminator g = false.
Proof.
  induction s as [|x s IH]; simpl; intros H; [discriminate|].
  assert (Hrec : Js.match_colon_group_semicolon s = Some (whole, g) ->
                 exists pre post,
                   String x s = pre ++ String ":" (g ++ String ";" post)
                   /\ whole = ":" ++ g ++ ";"
                   /\ has_char ";" g = false /\ has_line_terminator g = false).
  { intros H'. destruct (IH H') as (pre & post & -> & Hw & Hg).
    exists (String x pre), post. auto. }
  destruct (Ascii.eqb x ":") eqn:Hx; [|auto].
  destruct (Js.lazy_dots_then_semicolon s) as [g'|] eqn:Hl; [|auto].
  injection H as <- <-. apply Ascii.eqb_eq in Hx. subst x.
  destruct (lazy_dots_sound _ _ Hl) as (post & -> & Hg).
  exists "", post. auto.
Qed.

Lemma match_at_first_colon (pre r g : string) :
  has_char ":" pre = false ->
  Js.lazy_dots_then_semicolon r = Some g ->
  Js.match_colon_group_semicolon (pre ++ String ":" r)
  = Some (":" ++ g ++ ";", g).
Proof.
  intros Hpre Hr. induction pre as [|x pre IH]; simpl.
  - now rewrite Hr.
  - simpl in Hpre. apply orb_false_elim in Hpre as [Hx Hp].
    rewrite Hx. auto.
Qed.

(** A header with no [:], or with no [;], has no match. *)
Lemma match_needs_colon_and_semicolon (h : string) :
  has_char ":" h = false \/ has_char ";" h = false ->
  Js.match_colon_group_semicolon h = None.
Proof.
  intros H.
  destruct (Js.match_colon_group_semicolon h) as [[whole g]|] eqn:Hm;
    [|reflexivity].
  destruct (match_sound _ _ _ Hm) as (pre & post & -> & _).
  rewrite !has_char_app in H. simpl in H.
  rewrite has_char_app in H. simpl in H.
  rewrite !orb_true_r in H. destruct H; discriminate.
Qed.

(** ** The Payload Encoder *)

(** [onload] on a string, with the array of pieces read through
    [before_first] and [after_first]. *)
Lemma onload_string (s : string) :
  onload (ResultString s)
  = match after_first "," s with
    | None => Rejected (new_Error msg_invalid_format)
    | Some rest =>
        if (header_of s =? "") || (before_first "," rest =? "") then
          Rejected (new_Error msg_invalid_format)
        else
          match Js.match_colon_group_semicolon (header_of s) with
          | None => Rejected (new_Error msg_no_mime)
          | Some (_, group1) =>
              if group1 =? "" then Rejected (new_Error msg_no_mime)
              else Resolved {| mimeType := group1;
                               data := before_first "," rest |}
          end
    end.
Proof.
  unfold onload, header_of.
  destruct (split_first_two "," s) as [-> ->].
  destruct (after_first "," s); reflexivity.
Qed.

Lemma eqb_empty_false (s : string) : s <> "" -> (s =? "") = false.
Proof. intros H. now apply String.eqb_neq. Qed.

(** C1. For every well-formed encoded string
    ["data:<mime>;base64,<payload>"] (the MIME type and the payload not
    empty, neither holding a comma, the MIME type holding no [;] and no line
    terminator), the encoder succeeds and returns exactly
    [{mimeType: <mime>, data: <payload>}]. *)
Theorem encoder_well_formed_data_url (mime payload : string) :
  well_formed_mime mime = true ->
  well_formed_payload payload = true ->
  fileToGenerativePart (Loaded (ResultString (data_url mime payload)))
  = Resolved {| mimeType := mime; data := payload |}.
Proof.
  unfold well_formed_mime, well_formed_payload.
  rewrite !andb_true_iff, !negb_true_iff.
  intros [[[Hm Hmc] Hms] Hml] [Hp Hpc].
  assert (Hurl : data_url mime payload
                 = ("data:" ++ mime ++ ";base64") ++ String "," payload).
  { unfold data_url. simpl. do 5 f_equal.
    rewrite append_assoc. reflexivity. }
  assert (Hhc : has_char "," ("data:" ++ mime ++ ";base64") = false).
  { simpl. rewrite has_char_app, Hmc. reflexivity. }
  cbv beta iota delta [fileToGenerativePart].
  rewrite onload_string. unfold header_of.
  rewrite Hurl, (after_first_app _ _ _ Hhc), (before_first_app _ _ _ Hhc).
  rewrite (before_first_without_sep _ _ Hpc), Hp.
  change ("data:" ++ mime ++ ";base64")
    with ("data" ++ String ":" (mime ++ String ";" "base64")).
  rewrite (match_at_first_colon "data" _ mime eq_refl
             (lazy_dots_complete mime "base64" Hms Hml)).
  simpl. rewrite Hm. reflexivity.
Qed.

Lemma encoder_well_formed_data_url_witness :
  fileToGenerativePart
    (Loaded (ResultString (data_url "image/jpeg" "LzlqLzRB")))
  = Resolved {| mimeType := "image/jpeg"; data := "LzlqLzRB" |}.
Proof.
  apply (encoder_well_formed_data_url "image/jpeg" "LzlqLzRB"); reflexivity.
Defined.

Lemma cut_at_first_sep (sep : ascii) (s rest : string) :
  after_first sep s = Some rest ->
  s = before_first sep s ++ String sep rest.
Proof.
  intros H.
  destruct (first_sep_cases sep s) as [(_ & _ & Hn) | (a & b & Hs & _ & Hb & Ha)].
  - congruence.
  - rewrite Hb. congruence.
Qed.

(** What a success of the encoder tells about its input. *)
Lemma encoder_success_inv (s : string) (part : GenerativePart) :
  fileToGenerativePart (Loaded (ResultString s)) = Resolved part ->
  exists rest whole,
    after_first "," s = Some rest
    /\ data part = before_first "," rest
    /\ data part <> "" /\ header_of s <> "" /\ mimeType part <> ""
    /\ Js.match_colon_group_semicolon (header_of s)
       = Some (whole, mimeType part).
Proof.
  cbv beta iota delta [fileToGenerativePart]. rewrite onload_string.
  destruct (after_first "," s) as [rest|]; [|discriminate].
  destruct (header_of s =? "") eqn:Hh; [discriminate|].
  destruct (before_first "," rest =? "") eqn:Hd; [discriminate|]. simpl.
  destruct (Js.match_colon_group_semicolon (header_of s)) as [[whole g]|];
    [|discriminate].
  destruct (g =? "") eqn:Hg; [discriminate|].
  intros H. injection H as <-. simpl.
  exists rest, whole. apply String.eqb_neq in Hh, Hd, Hg.
  repeat split; auto.
Qed.

(** C2, as the code has it. For every input string on which the encoder
    succeeds, the input is a comma-free header, a comma and a rest; the
    returned data is the part of the rest before its first comma (so the
    entire rest when the rest has no further comma), and the returned
    mimeType is the substring of the header between a [:] and the first
    [;] that follows it. *)
Theorem encoder_split_on_success (s : string) (part : GenerativePart) :
  fileToGenerativePart (Loaded (ResultString s)) = Resolved part ->
  exists rest pre post,
    s = header_of s ++ String "," rest
    /\ has_char "," (header_of s) = false
    /\ data part = before_first "," rest
    /\ (has_char "," rest = false -> after_first "," s = Some (data part))
    /\ header_of s = pre ++ String ":" (mimeType part ++ String ";" post)
    /\ has_char ";" (mimeType part) = false.
Proof.
  intros H.
  destruct (encoder_success_inv _ _ H) as (rest & whole & Ha & Hd & _ & _ & _ & Hm).
  destruct (match_sound _ _ _ Hm) as (pre & post & Hh & _ & Hsemi & _).
  exists rest, pre, post. repeat split; auto.
  - now apply cut_at_first_sep.
  - apply has_char_before_first.
  - intros Hr. rewrite Hd, (before_first_without_sep _ _ Hr). exact Ha.
Qed.

Lemma encoder_split_on_success_witness :
  exists rest pre post,
    "data:image/png;base64,AAAA,BBBB"
    = header_of "data:image/png;base64,AAAA,BBBB" ++ String "," rest
    /\ has_char "," (header_of "data:image/png;base64,AAAA,BBBB") = false
    /\ "AAAA" = before_first "," rest
    /\ (has_char "," rest = false
        -> after_first "," "data:image/png;base64,AAAA,BBBB" = Some "AAAA")
    /\ header_of "data:image/png;base64,AAAA,BBBB"
       = pre ++ String ":" ("image/png" ++ String ";" post)
    /\ has_char ";" "image/png" = false.
Proof.
  apply (encoder_split_on_success "data:image/png;base64,AAAA,BBBB"
           {| mimeType := "image/png"; data := "AAAA" |}).
  reflexivity.
Defined.

(** C2, as stated, fails: on an input with two commas the encoder succeeds
    and the returned data is not the entire substring after the first
    comma. *)
Lemma encoder_data_not_all_after_first_comma :
  fileToGenerativePart (Loaded (ResultString "data:image/png;base64,AAAA,BBBB"))
  = Resolved {| mimeType := "image/png"; data := "AAAA" |}
  /\ after_first "," "data:image/png;base64,AAAA,BBBB" = Some "AAAA,BBBB"
  /\ ~ (forall s part,
          fileToGenerativePart (Loaded (ResultString s)) = Resolved part ->
          after_first "," s = Some (data part)).
Proof.
  split; [reflexivity|]. split; [reflexivity|].
  intros H.
  specialize (H "data:image/png;base64,AAAA,BBBB"
                {| mimeType := "image/png"; data := "AAAA" |} eq_refl).
  discriminate H.
Qed.

(** C3. For every input string that has no comma, or whose header has no
    match for the [:...;] pattern, the encoder rejects with an [Error] whose
    message names the stage that failed: the message of the comma split
    when the input has no comma (or a header or payload piece is empty), the
    message of the MIME match otherwise; it never resolves. *)
Theorem encoder_rejects_malformed (s : string) :
  has_char "," s = false
  \/ Js.match_colon_group_semicolon (header_of s) = None ->
  let outcome := fileToGenerativePart (Loaded (ResultString s)) in
  (has_char "," s = false -> outcome = Rejected (new_Error msg_invalid_format))
  /\ (outcome = Rejected (new_Error msg_invalid_format)
      \/ outcome = Rejected (new_Error msg_no_mime))
  /\ (outcome = Rejected (new_Error msg_no_mime) <->
      exists rest, after_first "," s = Some rest
                   /\ header_of s <> "" /\ before_first "," rest <> "")
  /\ (forall part, outcome <> Resolved part)
  /\ describes "invalid data URL format" msg_invalid_format = true
  /\ describes "could not extract MIME type" msg_no_mime = true.
Proof.
  intros Hbad outcome. subst outcome.
  cbv beta iota delta [fileToGenerativePart]. rewrite onload_string.
  destruct (first_sep_cases "," s) as [(Hn & _ & Ha) | (a & b & Hs & _ & _ & Ha)].
  - rewrite Ha. repeat split; auto; try discriminate.
    intros (rest & Hr & _). discriminate.
  - assert (Hc : has_char "," s = true).
    { rewrite Hs, has_char_app. simpl. apply orb_true_r. }
    destruct Hbad as [Hbad | Hbad]; [congruence|].
    rewrite Ha, Hbad.
    destruct (header_of s =? "") eqn:Hh; simpl.
    + apply String.eqb_eq in Hh.
      repeat split; auto; try discriminate; try congruence.
      intros (rest & _ & Hne & _). contradiction.
    + destruct (before_first "," b =? "") eqn:Hd.
      * apply String.eqb_eq in Hd.
        repeat split; auto; try discriminate; try congruence.
        intros (rest & Hr & _ & Hne). injection Hr as <-. contradiction.
      * apply String.eqb_neq in Hh, Hd.
        repeat split; auto; try discriminate; try congruence.
        intros _. exists b. auto.
Qed.

Lemma encoder_rejects_malformed_witness :
  fileToGenerativePart (Loaded (ResultString "image/png;base64;LzlqLzRB"))
  = Rejected (new_Error msg_invalid_format)
  /\ fileToGenerativePart (Loaded (ResultString "data-image/png,LzlqLzRB"))
     = Rejected (new_Error msg_no_mime).
Proof.
  split.
  - apply (encoder_rejects_malformed "image/png;base64;LzlqLzRB");
      [left|]; reflexivity.
  - apply (encoder_rejects_malformed "data-image/png,LzlqLzRB");
      [right; reflexivity|].
    exists "LzlqLzRB". repeat split; discriminate.
Defined.

(** C8, as the code has it. If the read itself errors, the encoder rejects
    with the event the host reported, as it is: the reason is not an
    [Error] object, so it has no message and no cause. *)
Theorem encoder_read_error_passes_event (ev : ProgressEvent) :
  fileToGenerativePart (ReadError ev) = Rejected (HostEvent ev)
  /\ message (HostEvent ev) = None
  /\ ~ (exists msg cause,
          fileToGenerativePart (ReadError ev) = Rejected (ErrorObj msg cause)).
Proof.
  repeat split. intros (msg & cause & H). discriminate H.
Qed.

(** C8, as stated, fails: on a read error the rejection is no [Error]
    object carrying the host's event as its cause. *)
Lemma encoder_read_error_no_cause :
  ~ (exists msg,
       fileToGenerativePart (ReadError (mkProgressEvent "error" 0 0))
       = Rejected (ErrorObj msg (Some (mkProgressEvent "error" 0 0)))).
Proof.
  intros (msg & H). discriminate H.
Qed.

(** C10, as the code has it. An input whose payload after the first comma
    is empty is rejected with "Invalid data URL format."; an input whose
    MIME type, between the first [:] of its header and the [;] next to it,
    is empty is rejected too: with "Could not extract MIME type from data
    URL." when the piece between its first two commas is there and not
    empty, with "Invalid data URL format." when it is not; and no success
    carries an empty data or mimeType. *)
Theorem encoder_rejects_empty_parts (s : string) :
  empty_payload s = true \/ empty_mime s = true ->
  let outcome := fileToGenerativePart (Loaded (ResultString s)) in
  (empty_payload s = true ->
   outcome = Rejected (new_Error msg_invalid_format))
  /\ (empty_mime s = true ->
      outcome = Rejected (new_Error (if Js.falsy (data_piece s)
                                     then msg_invalid_format
                                     else msg_no_mime)))
  /\ (forall s' part,
        fileToGenerativePart (Loaded (ResultString s')) = Resolved part ->
        data part <> "" /\ mimeType part <> "").
Proof.
  intros Hempty outcome. split; [|split].
  - unfold empty_payload. intros Ha. subst outcome.
    cbv beta iota delta [fileToGenerativePart]. rewrite onload_string.
    destruct (after_first "," s) as [rest|]; [|discriminate].
    apply String.eqb_eq in Ha. subst rest.
    simpl. rewrite orb_true_r. reflexivity.
  - unfold empty_mime. intros He.
    destruct (after_first ":" (header_of s)) as [[|c post]|] eqn:Ha;
      try discriminate.
    apply Ascii.eqb_eq in He. subst c.
    assert (Hne : header_of s <> "").
    { rewrite (cut_at_first_sep _ _ _ Ha).
      destruct (before_first ":" (header_of s)); discriminate. }
    assert (Hmatch : Js.match_colon_group_semicolon (header_of s)
                     = Some (":" ++ "" ++ ";", "")).
    { rewrite (cut_at_first_sep _ _ _ Ha).
      apply match_at_first_colon; [apply has_char_before_first | reflexivity]. }
    subst outcome.
    cbv beta iota delta [fileToGenerativePart]. rewrite onload_string.
    unfold data_piece.
    destruct (after_first "," s) as [rest|]; simpl; [|reflexivity].
    rewrite (eqb_empty_false _ Hne). simpl.
    destruct (before_first "," rest =? ""); [reflexivity|].
    rewrite Hmatch. reflexivity.
  - intros s' part H.
    destruct (encoder_success_inv _ _ H) as (_ & _ & _ & _ & Hd & _ & Hg & _).
    auto.
Qed.

Lemma encoder_rejects_empty_parts_witness :
  fileToGenerativePart (Loaded (ResultString "data:image/png;base64,"))
  = Rejected (new_Error msg_invalid_format)
  /\ fileToGenerativePart (Loaded (ResultString "data:;base64,AAAA"))
     = Rejected (new_Error msg_no_mime).
Proof.
  split.
  - exact (proj1 (encoder_rejects_empty_parts "data:image/png;base64,"
                    (or_introl eq_refl)) eq_refl).
  - exact (proj1 (proj2 (encoder_rejects_empty_parts "data:;base64,AAAA"
                           (or_intror eq_refl))) eq_refl).
Defined.

(** C10, as stated, fails: an input whose MIME type is empty is rejected
    with the message of the piece check, not of the MIME match, when it has
    no comma, or nothing between its first two commas. *)
Lemma encoder_empty_mime_other_message :
  empty_mime "data:;base64,,AAAA" = true
  /\ empty_payload "data:;base64,,AAAA" = false
  /\ fileToGenerativePart (Loaded (ResultString "data:;base64,,AAAA"))
     = Rejected (new_Error msg_invalid_format)
  /\ empty_mime "data:;base64" = true
  /\ fileToGenerativePart (Loaded (ResultString "data:;base64"))
     = Rejected (new_Error msg_invalid_format)
  /\ ~ (forall s, empty_mime s = true ->
                  fileToGenerativePart (Loaded (ResultString s))
                  = Rejected (new_Error msg_no_mime)).
Proof.
  repeat split.
  intros H. specialize (H "data:;base64,,AAAA" eq_refl). discriminate H.
Qed.

(** ** The Edit Orchestrator *)

Lemma handleGenerate_valid (st : AppState) (file : File) :
  originalImageFile st = Some file -> prompt st <> "" ->
  handleGenerate st
  = (setIsLoading true ;; setError None ;; setEditedImageData None ;;
     await_fileToGenerativePart file (after_encoder (prompt st))).
Proof.
  intros Hf Hp. unfold handleGenerate.
  rewrite Hf, (eqb_empty_false _ Hp). reflexivity.
Qed.

Lemma handleGenerate_invalid (st : AppState) :
  originalImageFile st = None \/ prompt st = "" ->
  handleGenerate st = (setError (Some msg_validation) ;; Return).
Proof.
  intros H. unfold handleGenerate.
  destruct (originalImageFile st); [|reflexivity].
  destruct H as [H | ->]; [discriminate | reflexivity].
Qed.

Lemma generate_enabled (st : AppState) :
  generate_disabled st = false ->
  isLoading st = false
  /\ (exists file, originalImageFile st = Some file)
  /\ prompt st <> "".
Proof.
  unfold generate_disabled. intros H.
  apply orb_false_elim in H as [H Hp].
  apply orb_false_elim in H as [Hl Hf].
  repeat split; auto.
  - destruct (originalImageFile st) as [file|]; [eauto | discriminate].
  - now apply String.eqb_neq.
Qed.

Lemma steps_app (w : World) (es1 es2 : list Event) :
  steps w (es1 ++ es2)
  = match steps w es1 with
    | Some w1 => steps w1 es2
    | None => None
    end.
Proof.
  revert w. induction es1 as [|e es1 IH]; intros w; simpl; [reflexivity|].
  destruct (step w e); [apply IH | reflexivity].
Qed.

Lemma reachable_steps (w w' : World) (es : list Event) :
  reachable w -> steps w es = Some w' -> reachable w'.
Proof.
  revert w. induction es as [|e es IH]; intros w Hr; simpl.
  - intros H. injection H as <-. exact Hr.
  - destruct (step w e) as [w1|] eqn:He; [|discriminate].
    apply IH. exact (reachable_step _ _ _ Hr He).
Qed.

(** C4. For every invocation of [handleGenerate] while no file is selected
    or while the prompt is empty, the validation error is stored, the
    loading flag is left as it is (so it stays false), and nothing is
    awaited: no encoder invocation, no call of the service. *)
Theorem generate_without_inputs_rejected (w : World) :
  originalImageFile (ui w) = None \/ prompt (ui w) = "" ->
  let w' := invoke_handleGenerate w in
  error (ui w') = Some msg_validation
  /\ isLoading (ui w') = isLoading (ui w)
  /\ (isLoading (ui w) = false -> isLoading (ui w') = false)
  /\ calls w' = calls w
  /\ (calls w = [] -> calls w' = [])
  /\ inflight w' = inflight w
  /\ editedImageData (ui w') = editedImageData (ui w).
Proof.
  intros H w'. subst w'. unfold invoke_handleGenerate, invoke.
  rewrite (handleGenerate_invalid _ H). simpl.
  rewrite app_nil_r. repeat split; auto.
Qed.

Lemma generate_without_inputs_rejected_witness :
  error (ui (invoke_handleGenerate initial_world)) = Some msg_validation
  /\ isLoading (ui (invoke_handleGenerate initial_world)) = false
  /\ calls (invoke_handleGenerate initial_world) = [].
Proof.
  destruct (generate_without_inputs_rejected initial_world (or_introl eq_refl))
    as (He & _ & Hl & _ & Hc & _).
  split; [exact He | split; [exact (Hl eq_refl) | exact (Hc eq_refl)]].
Defined.

(** *** One cycle, step by step *)

Ltac open_world w :=
  let st := fresh "st" in
  destruct w as [st ? ? ? ? ?]; destruct st; simpl in *.

(** Closes the conjuncts of the phase predicates once the world is open. *)
Ltac phase_facts :=
  repeat split; auto;
  try discriminate;
  try (let url := fresh "url" in
       let H := fresh "H" in
       intros url H; injection H as <-; discriminate).

Lemma click_starts_encoding (w : World) :
  inflight w = [] -> generate_disabled (ui w) = false ->
  step w ClickGenerate = Some (invoke_handleGenerate w)
  /\ Encoding (prompt (ui w)) (invoke_handleGenerate w)
  /\ exists file,
       originalImageFile (ui w) = Some file
       /\ calls (invoke_handleGenerate w)
          = (calls w ++ [call_fileToGenerativePart file])%list.
Proof.
  intros Hin Hen. simpl. rewrite Hen.
  destruct (generate_enabled _ Hen) as (Hl & (file & Hf) & Hp).
  unfold invoke_handleGenerate, invoke, Encoding, Busy.
  rewrite (handleGenerate_valid _ file Hf Hp).
  open_world w. subst. repeat split; eauto. discriminate.
Qed.

Lemma bystander_keeps_busy (pending : Suspended) (w w' : World) (e : Event) :
  Busy pending w -> bystander e = true -> step w e = Some w' ->
  Busy pending w' /\ calls w' = calls w.
Proof.
  unfold Busy. intros (Hl & Hd & He & Hf & Hin) Hb Hs.
  destruct e; try discriminate Hb; simpl in Hs.
  - injection Hs as <-. open_world w. subst. repeat split; auto. discriminate.
  - destruct (previewReads w) eqn:Hn; [discriminate|].
    injection Hs as <-. open_world w. subst. repeat split; auto.
  - injection Hs as <-. open_world w. subst. repeat split; auto.
  - unfold generate_disabled in Hs. rewrite Hl in Hs. simpl in Hs.
    injection Hs as <-. repeat split; auto.
  - unfold download_rendered in Hs. rewrite Hl in Hs. simpl in Hs.
    injection Hs as <-. repeat split; auto.
Qed.

Lemma bystanders_keep_busy (pending : Suspended) (es : list Event) :
  forall w w', Busy pending w -> forallb bystander es = true ->
               steps w es = Some w' ->
               Busy pending w' /\ calls w' = calls w.
Proof.
  induction es as [|e es IH]; simpl; intros w w' Hb Hall Hs.
  - injection Hs as <-. auto.
  - apply andb_true_iff in Hall as [He Hes].
    destruct (step w e) as [w1|] eqn:H1; [|discriminate].
    destruct (bystander_keeps_busy _ _ _ _ Hb He H1) as [Hb1 Hc1].
    destruct (IH _ _ Hb1 Hes Hs) as [Hb' Hc']. split; congruence.
Qed.

Lemma user_event_delivered (w : World) (e : Event) :
  user_event e = true -> exists w', step w e = Some w'.
Proof.
  destruct e; try discriminate; intros _; simpl; eauto.
  - destruct (generate_disabled (ui w)); eauto.
  - destruct (download_rendered (ui w)); eauto.
Qed.

Lemma user_events_delivered (es : list Event) :
  forall w, forallb user_event es = true -> exists w', steps w es = Some w'.
Proof.
  induction es as [|e es IH]; simpl; intros w Hall; [eauto|].
  apply andb_true_iff in Hall as [He Hes].
  destruct (user_event_delivered w e He) as [w1 ->]. auto.
Qed.

Lemma user_event_bystander (es : list Event) :
  forallb user_event es = true -> forallb bystander es = true.
Proof.
  induction es as [|e es IH]; simpl; [reflexivity|].
  intros H. apply andb_true_iff in H as [He Hes].
  rewrite (IH Hes). destruct e; try discriminate; reflexivity.
Qed.

(** When the encoder's read ends during [Encoding]. *)
Lemma encoder_settles (instruction : string) (w : World) (read : ReaderOutcome) :
  Encoding instruction w ->
  exists w',
    step w (EncoderReadEnds 0 read) = Some w'
    /\ match fileToGenerativePart read with
       | Resolved imagePart =>
           Calling imagePart w'
           /\ calls w'
              = (calls w ++ [call_editImageWithGemini (data imagePart)
                               (mimeType imagePart) instruction])%list
       | Rejected e =>
           Settled_state w'
           /\ error (ui w') = Some (Js.or_else (message e) msg_unknown)
           /\ editedImageData (ui w') = None
           /\ originalImageFile (ui w') <> None
           /\ prompt (ui w') = prompt (ui w)
           /\ calls w' = calls w
       end.
Proof.
  unfold Encoding, Calling, Busy, Settled_state.
  intros (Hl & Hd & He & Hf & Hin). simpl. rewrite Hin. simpl.
  eexists. split; [reflexivity|].
  unfold continue.
  destruct (fileToGenerativePart read) as [imagePart | e]; simpl;
    open_world w; subst; simpl; phase_facts.
Qed.

(** When the outbound call settles during [Calling]. *)
Lemma service_settles (imagePart : GenerativePart) (w : World)
    (outcome : Settled string) :
  Calling imagePart w ->
  exists w',
    step w (ServiceSettles 0 outcome) = Some w'
    /\ Settled_state w'
    /\ originalImageFile (ui w') <> None
    /\ prompt (ui w') = prompt (ui w)
    /\ calls w' = calls w
    /\ match outcome with
       | Resolved resultBase64 =>
           editedImageData (ui w')
           = Some ("data:" ++ mimeType imagePart ++ ";base64," ++ resultBase64)
           /\ error (ui w') = None
       | Rejected e =>
           error (ui w') = Some (Js.or_else (message e) msg_unknown)
           /\ editedImageData (ui w') = None
       end.
Proof.
  unfold Calling, Busy, Settled_state.
  intros (Hl & Hd & He & Hf & Hin). simpl. rewrite Hin. simpl.
  eexists. split; [reflexivity|].
  unfold continue.
  destruct outcome as [resultBase64 | e]; simpl;
    open_world w; subst; simpl; phase_facts.
Qed.

(** When the outbound call rejects with [null] or [undefined] during
    [Calling]: the session settles with no result and no error. *)
Lemma service_rejects_nullish (imagePart : GenerativePart) (w : World) :
  Calling imagePart w ->
  exists w',
    step w (ServiceRejectsNullish 0) = Some w'
    /\ Settled_state w'
    /\ originalImageFile (ui w') <> None
    /\ prompt (ui w') = prompt (ui w)
    /\ calls w' = calls w
    /\ error (ui w') = None
    /\ editedImageData (ui w') = None
    /\ console w' = (console w ++ [Nullish])%list.
Proof.
  unfold Calling, Busy, Settled_state.
  intros (Hl & Hd & He & Hf & Hin). simpl. rewrite Hin. simpl.
  eexists. split; [reflexivity|].
  unfold continue. simpl. open_world w; subst; simpl; phase_facts.
Qed.

Lemma steps_through_busy (pending : Suspended) (w w' : World)
    (es rest : list Event) (e : Event) :
  Busy pending w -> forallb bystander es = true ->
  steps w (es ++ e :: rest) = Some w' ->
  exists w1 w2,
    steps w es = Some w1 /\ Busy pending w1 /\ calls w1 = calls w
    /\ step w1 e = Some w2 /\ steps w2 rest = Some w'.
Proof.
  intros Hb Hall. rewrite steps_app.
  destruct (steps w es) as [w1|] eqn:H1; [|discriminate].
  destruct (bystanders_keep_busy _ _ _ _ Hb Hall H1) as [Hb1 Hc1].
  simpl. destruct (step w1 e) as [w2|] eqn:H2; [|discriminate].
  intros H. exists w1, w2. auto.
Qed.

Lemma users_through_busy (pending : Suspended) (w : World) (es : list Event) :
  Busy pending w -> forallb user_event es = true ->
  exists w1, steps w es = Some w1 /\ Busy pending w1.
Proof.
  intros Hb Hall.
  destruct (user_events_delivered es w Hall) as [w1 H1].
  exists w1. split; [exact H1|].
  exact (proj1 (bystanders_keep_busy _ _ _ _ Hb
                  (user_event_bystander _ Hall) H1)).
Qed.

(** *** The phases are an invariant *)

Lemma phase_initial : Phase initial_world.
Proof. left. unfold Settled_state. simpl. phase_facts. Qed.

Lemma nth_error_singleton {A : Type} (a b : A) (i : nat) :
  nth_error [a] i = Some b -> i = 0 /\ a = b.
Proof.
  destruct i as [|i]; simpl.
  - intros H. injection H as <-. auto.
  - destruct i; discriminate.
Qed.

Lemma settled_step (w w' : World) (e : Event) :
  Settled_state w -> step w e = Some w' -> Phase w'.
Proof.
  intros Hs H. pose proof Hs as (Hl & Hin & Hone & Hne).
  destruct e; simpl in H.
  - injection H as <-. left. unfold Settled_state.
    open_world w. subst. phase_facts.
  - destruct (previewReads w) eqn:Hn; [discriminate|].
    injection H as <-. left. unfold Settled_state.
    open_world w. subst. phase_facts.
  - injection H as <-. left. unfold Settled_state.
    open_world w. subst. phase_facts.
  - destruct (generate_disabled (ui w)) eqn:Hg.
    + injection H as <-. left. exact Hs.
    + injection H as <-. right. left. exists (prompt (ui w)).
      apply (click_starts_encoding w Hin Hg).
  - destruct (download_rendered (ui w)); injection H as <-; left;
      [unfold Settled_state; simpl; phase_facts | exact Hs].
  - rewrite Hin in H. destruct i; discriminate H.
  - rewrite Hin in H. destruct i; discriminate H.
  - rewrite Hin in H. destruct i; discriminate H.
Qed.

Lemma encoding_step (instruction : string) (w w' : World) (e : Event) :
  Encoding instruction w -> step w e = Some w' -> Phase w'.
Proof.
  intros Hb H.
  destruct (bystander e) eqn:He.
  - right. left. exists instruction.
    apply (bystander_keeps_busy _ _ _ _ Hb He H).
  - pose proof Hb as (_ & _ & _ & _ & Hin).
    destruct e; try discriminate He; simpl in H; rewrite Hin in H.
    + destruct (nth_error [AwaitingEncoder (after_encoder instruction)] i)
        as [[k|k]|] eqn:Hn; try discriminate.
      apply nth_error_singleton in Hn as [-> Hk]. injection Hk as <-.
      destruct (encoder_settles instruction w read Hb) as (w1 & H1 & Hout).
      simpl in H1. rewrite Hin in H1. simpl in H1.
      assert (w1 = w') by congruence. subst w1.
      destruct (fileToGenerativePart read) as [imagePart | r].
      * right. right. exists imagePart. apply Hout.
      * left. apply Hout.
    + destruct (nth_error [AwaitingEncoder (after_encoder instruction)] i)
        as [[k|k]|] eqn:Hn; try discriminate.
      apply nth_error_singleton in Hn as [_ Hk]. discriminate Hk.
    + destruct (nth_error [AwaitingEncoder (after_encoder instruction)] i)
        as [[k|k]|] eqn:Hn; try discriminate.
      apply nth_error_singleton in Hn as [_ Hk]. discriminate Hk.
Qed.

Lemma calling_step (imagePart : GenerativePart) (w w' : World) (e : Event) :
  Calling imagePart w -> step w e = Some w' -> Phase w'.
Proof.
  intros Hb H.
  destruct (bystander e) eqn:He.
  - right. right. exists imagePart.
    apply (bystander_keeps_busy _ _ _ _ Hb He H).
  - pose proof Hb as (_ & _ & _ & _ & Hin). pose proof H as Hstep.
    destruct e; try discriminate He; simpl in H; rewrite Hin in H.
    + destruct (nth_error [AwaitingService (after_service imagePart)] i)
        as [[k|k]|] eqn:Hn; try discriminate.
      apply nth_error_singleton in Hn as [_ Hk]. discriminate Hk.
    + destruct (nth_error [AwaitingService (after_service imagePart)] i)
        as [[k|k]|] eqn:Hn; try discriminate.
      apply nth_error_singleton in Hn as [-> _].
      destruct (service_settles imagePart w outcome Hb) as (w1 & H1 & Hs & _).
      assert (w1 = w') by congruence. subst w1.
      left. exact Hs.
    + destruct (nth_error [AwaitingService (after_service imagePart)] i)
        as [[k|k]|] eqn:Hn; try discriminate.
      apply nth_error_singleton in Hn as [-> _].
      destruct (service_rejects_nullish imagePart w Hb) as (w1 & H1 & Hs & _).
      assert (w1 = w') by congruence. subst w1.
      left. exact Hs.
Qed.

Lemma reachable_phase (w : World) : reachable w -> Phase w.
Proof.
  induction 1 as [|w e w' _ IH Hstep]; [apply phase_initial|].
  destruct IH as [Hs | [[instruction Hb] | [imagePart Hb]]].
  - exact (settled_step _ _ _ Hs Hstep).
  - exact (encoding_step _ _ _ _ Hb Hstep).
  - exact (calling_step _ _ _ _ Hb Hstep).
Qed.

Lemma reachable_idle (w : World) :
  reachable w -> isLoading (ui w) = false -> Settled_state w.
Proof.
  intros Hr Hl.
  destruct (reachable_phase w Hr) as [Hs | [[? Hb] | [? Hb]]];
    [exact Hs | |]; destruct Hb as (Hb & _); congruence.
Qed.

(** *** Whole cycles *)

(** A cycle up to the end of the encoder's read. *)
Lemma cycle_until_encoder (w w' : World) (before rest : list Event)
    (read : ReaderOutcome) :
  reachable w -> generate_disabled (ui w) = false ->
  forallb bystander before = true ->
  steps w (ClickGenerate :: before ++ EncoderReadEnds 0 read :: rest) = Some w' ->
  exists w1 w2 file,
    Encoding (prompt (ui w)) w1
    /\ originalImageFile (ui w) = Some file
    /\ calls w1 = (calls w ++ [call_fileToGenerativePart file])%list
    /\ step w1 (EncoderReadEnds 0 read) = Some w2
    /\ steps w2 rest = Some w'.
Proof.
  intros Hr Hen Hb H.
  destruct (generate_enabled _ Hen) as (Hl & _ & _).
  destruct (reachable_idle w Hr Hl) as (_ & Hin & _).
  destruct (click_starts_encoding w Hin Hen) as (Hc & He & file & Hf & Hcalls).
  change (steps w (ClickGenerate :: before ++ EncoderReadEnds 0 read :: rest))
    with (match step w ClickGenerate with
          | Some w0 => steps w0 (before ++ EncoderReadEnds 0 read :: rest)
          | None => None
          end) in H.
  rewrite Hc in H.
  destruct (steps_through_busy _ _ _ _ _ _ He Hb H)
    as (w1 & w2 & _ & Hb1 & Hc1 & H2 & Hrest).
  exists w1, w2, file. repeat split; auto; try apply Hb1. congruence.
Qed.

(** The same, as far as the user alone decides. *)
Lemma cycle_reaches_encoder (w : World) (before : list Event) :
  reachable w -> generate_disabled (ui w) = false ->
  forallb user_event before = true ->
  exists w1, steps w (ClickGenerate :: before) = Some w1
             /\ Encoding (prompt (ui w)) w1.
Proof.
  intros Hr Hen Hu.
  destruct (generate_enabled _ Hen) as (Hl & _ & _).
  destruct (reachable_idle w Hr Hl) as (_ & Hin & _).
  destruct (click_starts_encoding w Hin Hen) as (Hc & He & _).
  simpl. rewrite Hen.
  exact (users_through_busy _ _ _ He Hu).
Qed.


(** C5. For every generate cycle in which the encoder yields the MIME type
    M and the service resolves with the payload P, whatever else happens
    meanwhile, the cycle ends with the displayed image
    ["data:" + M + ";base64," + P], the loading flag cleared and no error;
    the encoder and the service were each called once, the service with the
    encoder's data and MIME type and the prompt of the click. *)
Theorem generate_cycle_success (w : World) (before after : list Event)
    (read : ReaderOutcome) (imagePart : GenerativePart)
    (resultBase64 : string) :
  reachable w -> generate_disabled (ui w) = false ->
  forallb bystander before = true -> forallb bystander after = true ->
  fileToGenerativePart read = Resolved imagePart ->
  let cycle := (ClickGenerate :: before ++ [EncoderReadEnds 0 read] ++ after
                ++ [ServiceSettles 0 (Resolved resultBase64)])%list in
  (forallb user_event before = true -> forallb user_event after = true ->
   exists w', steps w cycle = Some w')
  /\ forall w', steps w cycle = Some w' ->
       editedImageData (ui w')
       = Some ("data:" ++ mimeType imagePart ++ ";base64," ++ resultBase64)
       /\ isLoading (ui w') = false
       /\ error (ui w') = None
       /\ exists file,
            originalImageFile (ui w) = Some file
            /\ calls w'
               = (calls w
                  ++ [call_fileToGenerativePart file;
                      call_editImageWithGemini (data imagePart)
                        (mimeType imagePart) (prompt (ui w))])%list.
Proof.
  intros Hr Hen Hb Ha Henc cycle. subst cycle. split.
  - intros Hub Hua.
    destruct (cycle_reaches_encoder w before Hr Hen Hub) as (w1 & H1 & He1).
    destruct (encoder_settles _ w1 read He1) as (w2 & H2 & Hout).
    rewrite Henc in Hout. destruct Hout as [Hcall _].
    destruct (users_through_busy _ _ _ Hcall Hua) as (w3 & H3 & Hb3).
    destruct (service_settles imagePart w3 (Resolved resultBase64) Hb3)
      as (w4 & H4 & _).
    exists w4.
    change (ClickGenerate :: before ++ [EncoderReadEnds 0 read] ++ after
            ++ [ServiceSettles 0 (Resolved resultBase64)])%list
      with ((ClickGenerate :: before)
            ++ EncoderReadEnds 0 read
               :: (after ++ [ServiceSettles 0 (Resolved resultBase64)]))%list.
    rewrite steps_app, H1. cbn [steps]. rewrite H2.
    rewrite steps_app, H3. cbn [steps]. rewrite H4. reflexivity.
  - intros w' H.
    destruct (cycle_until_encoder _ _ _ _ _ Hr Hen Hb H)
      as (w1 & w2 & file & He1 & Hf & Hc1 & H2 & Hrest).
    destruct (encoder_settles _ w1 read He1) as (w2' & H2' & Hout).
    rewrite Henc in Hout. destruct Hout as [Hcall Hc2].
    assert (w2' = w2) by congruence. subst w2'.
    destruct (steps_through_busy _ _ _ _ _ _ Hcall Ha Hrest)
      as (w3 & w4 & _ & Hb3 & Hc3 & H4 & Hend).
    simpl in Hend. injection Hend as <-.
    destruct (service_settles imagePart w3 (Resolved resultBase64) Hb3)
      as (w4' & H4' & (Hl & _) & _ & _ & Hc4 & Hd & Herr).
    assert (w4' = w4) by congruence. subst w4'.
    repeat split; auto.
    exists file. split; [exact Hf|].
    rewrite Hc4, Hc3, Hc2, Hc1, <- app_assoc. reflexivity.
Qed.

Lemma ready_world_reachable : reachable ready_world.
Proof.
  apply (reachable_steps initial_world ready_world
           [SelectFile photo; TypePrompt "make it neon"] reachable_initial).
  reflexivity.
Qed.

Lemma success_world_reachable : reachable success_world.
Proof.
  apply (reachable_steps ready_world success_world
           [ClickGenerate; EncoderReadEnds 0 photo_read;
            ServiceSettles 0 (Resolved "iVBORw0KG")] ready_world_reachable).
  reflexivity.
Qed.

Lemma generate_cycle_success_witness :
  exists w',
    steps ready_world
      [ClickGenerate; TypePrompt "make it neon!";
       EncoderReadEnds 0 photo_read; ClickGenerate;
       ServiceSettles 0 (Resolved "iVBORw0KG")] = Some w'
    /\ editedImageData (ui w') = Some "data:image/jpeg;base64,iVBORw0KG"
    /\ isLoading (ui w') = false
    /\ error (ui w') = None.
Proof.
  destruct (generate_cycle_success ready_world
              [TypePrompt "make it neon!"] [ClickGenerate] photo_read
              {| mimeType := "image/jpeg"; data := "LzlqLzRB" |} "iVBORw0KG"
              ready_world_reachable eq_refl eq_refl eq_refl eq_refl)
    as [Hruns Hends].
  destruct (Hruns eq_refl eq_refl) as [w' Hw'].
  exists w'. split; [exact Hw'|].
  destruct (Hends w' Hw') as (Hd & Hl & He & _).
  split; [exact Hd | split; [exact Hl | exact He]].
Defined.





(** C7. In every reachable session: while the loading flag is set, no
    result and no error are held, and exactly one request is outstanding;
    and at any time, so also after a request settled, exactly one holds of:
    no result, a success result, an error result. *)
Theorem session_invariant (w : World) :
  reachable w ->
  (isLoading (ui w) = true ->
   no_result (ui w) /\ List.length (inflight w) = 1)
  /\ (isLoading (ui w) = false -> inflight w = [])
  /\ exactly_one (no_result (ui w)) (success_result (ui w))
                 (error_result (ui w)).
Proof.
  intros Hr. unfold exactly_one, no_result, success_result, error_result.
  destruct (reachable_phase w Hr)
    as [(Hl & Hin & Hone & _) | [[? Hb] | [? Hb]]].
  - split; [congruence|]. split; [auto|].
    destruct (editedImageData (ui w)) as [url|], (error (ui w)) as [msg|].
    + destruct Hone; discriminate.
    + right. left. repeat split; try discriminate. intros [H _]. discriminate.
      intros H. now apply H.
    + right. right. repeat split; try discriminate. intros [_ H]. discriminate.
      intros H. now apply H.
    + left. repeat split; intros H; now apply H.
  - destruct Hb as (Hl & Hd & He & _ & Hin).
    rewrite Hd, He, Hin, Hl. split; [auto|]. split; [discriminate|].
    left. repeat split; intros H; now apply H.
  - destruct Hb as (Hl & Hd & He & _ & Hin).
    rewrite Hd, He, Hin, Hl. split; [auto|]. split; [discriminate|].
    left. repeat split; intros H; now apply H.
Qed.

Lemma session_invariant_witness :
  exactly_one (no_result (ui success_world)) (success_result (ui success_world))
              (error_result (ui success_world)).
Proof.
  exact (proj2 (proj2 (session_invariant success_world success_world_reachable))).
Defined.

(** The invariant needs the Generate button to be disabled when an input is
    missing: [handleGenerate] itself, were it invoked on a session that
    shows a result and whose prompt has been emptied, would store the
    validation error next to the result. *)
Remark handleGenerate_keeps_result_on_validation_error :
  let w := invoke (setPrompt "" ;; Return) success_world in
  generate_disabled (ui w) = true
  /\ step w ClickGenerate = Some w
  /\ success_result (ui (invoke_handleGenerate w))
  /\ error_result (ui (invoke_handleGenerate w)).
Proof.
  simpl. repeat split; discriminate.
Qed.

(** A result held in a reachable session is never the empty string. *)
Lemma reachable_result_not_empty (w : World) (url : string) :
  reachable w -> editedImageData (ui w) = Some url -> url <> "".
Proof.
  intros Hr Hd.
  destruct (reachable_phase w Hr) as [(_ & _ & _ & Hne) | [[? Hb] | [? Hb]]].
  - exact (Hne url Hd).
  - destruct Hb as (_ & Hnone & _). congruence.
  - destruct Hb as (_ & Hnone & _). congruence.
Qed.

Lemma timestamp_round_trip (now : Z) :
  option_map Z.of_int (NilZero.int_of_string (Js.number_to_string now))
  = Some now.
Proof.
  unfold Js.number_to_string.
  rewrite NilZero.isi.
  - simpl. now rewrite DecimalZ.of_to.
  - destruct now as [|p|p]; simpl; try discriminate.
    intros H. injection H as H. exact (DecimalPos.Unsigned.to_uint_nonnil p H).
  - destruct now as [|p|p]; simpl; try discriminate.
    intros H. injection H as H. exact (DecimalPos.Unsigned.to_uint_nonnil p H).
Qed.

(** C9. [handleDownload] does nothing when no result is held; when the
    session holds a result, it offers that very string, untouched, as the
    content of a link it clicks, under the name
    ["h4x_edit_" + <Date.now() in decimal> + ".png"], whatever the format
    the string declares. *)
Theorem download_materializes_result (w : World) (now : Z) :
  reachable w ->
  (editedImageData (ui w) = None -> handleDownload (ui w) now = [])
  /\ (forall url, editedImageData (ui w) = Some url ->
        handleDownload (ui w) now
        = [ createElement_a;
            set_href url;
            set_download ("h4x_edit_" ++ Js.number_to_string now ++ ".png");
            appendChild; click; removeChild ])
  /\ (forall st url, editedImageData st = Some url -> url <> "" ->
        handleDownload st now
        = [ createElement_a;
            set_href url;
            set_download ("h4x_edit_" ++ Js.number_to_string now ++ ".png");
            appendChild; click; removeChild ])
  /\ option_map Z.of_int (NilZero.int_of_string (Js.number_to_string now))
     = Some now
  /\ (download_rendered (ui w) = false -> step w (ClickDownload now) = Some w).
Proof.
  intros Hr.
  assert (Hany : forall st url, editedImageData st = Some url -> url <> "" ->
            handleDownload st now
            = [ createElement_a;
                set_href url;
                set_download ("h4x_edit_" ++ Js.number_to_string now ++ ".png");
                appendChild; click; removeChild ]).
  { intros st url Hd Hne. unfold handleDownload. rewrite Hd. simpl.
    rewrite (eqb_empty_false _ Hne). reflexivity. }
  split; [|split; [|split; [|split]]].
  - intros Hd. unfold handleDownload. rewrite Hd. reflexivity.
  - intros url Hd.
    exact (Hany _ url Hd (reachable_result_not_empty w url Hr Hd)).
  - exact Hany.
  - apply timestamp_round_trip.
  - intros Hn. simpl. rewrite Hn. reflexivity.
Qed.

Lemma download_materializes_result_witness :
  handleDownload (ui success_world) 1730505600000
  = [ createElement_a;
      set_href "data:image/jpeg;base64,iVBORw0KG";
      set_download "h4x_edit_1730505600000.png";
      appendChild; click; removeChild ].
Proof.
  exact (proj1 (proj2 (download_materializes_result success_world 1730505600000
                         success_world_reachable))
           "data:image/jpeg;base64,iVBORw0KG" eq_refl).
Defined.

(** ** More on the Payload Encoder *)

(** [onload] on a string given by its parts: a header whose first [:] is
    followed by [mime] and [;], then a comma and the payload. *)
Lemma onload_of_parts (pre mime tail payload : string) :
  has_char ":" pre = false -> has_char "," pre = false ->
  mime <> "" -> has_char "," mime = false -> has_char ";" mime = false ->
  has_line_terminator mime = false ->
  has_char "," tail = false ->
  payload <> "" -> has_char "," payload = false ->
  onload (ResultString
            (pre ++ String ":" (mime ++ String ";" (tail ++ String "," payload))))
  = Resolved {| mimeType := mime; data := payload |}.
Proof.
  intros Hpc Hpk Hm Hmk Hms Hml Htk Hp Hpk'.
  assert (Hs : pre ++ String ":" (mime ++ String ";" (tail ++ String "," payload))
               = (pre ++ String ":" (mime ++ String ";" tail))
                 ++ String "," payload).
  { rewrite append_assoc. simpl. rewrite append_assoc. reflexivity. }
  assert (Hh : has_char "," (pre ++ String ":" (mime ++ String ";" tail))
               = false).
  { rewrite has_char_app. simpl. rewrite has_char_app. simpl.
    now rewrite Hpk, Hmk, Htk. }
  rewrite onload_string. unfold header_of.
  rewrite Hs, (after_first_app _ _ _ Hh), (before_first_app _ _ _ Hh).
  rewrite (before_first_without_sep _ _ Hpk'), (eqb_empty_false _ Hp).
  rewrite orb_false_r.
  assert (Hne : pre ++ String ":" (mime ++ String ";" tail) <> "").
  { destruct pre; discriminate. }
  rewrite (eqb_empty_false _ Hne).
  rewrite (match_at_first_colon pre _ mime Hpc
             (lazy_dots_complete mime tail Hms Hml)).
  now rewrite (eqb_empty_false _ Hm).
Qed.

Lemma well_formed_mime_facts (mime : string) :
  well_formed_mime mime = true <->
  mime <> "" /\ has_char "," mime = false /\ has_char ";" mime = false
  /\ has_line_terminator mime = false.
Proof.
  unfold well_formed_mime.
  rewrite !andb_true_iff, !negb_true_iff, String.eqb_neq. tauto.
Qed.

Lemma well_formed_payload_facts (payload : string) :
  well_formed_payload payload = true <->
  payload <> "" /\ has_char "," payload = false.
Proof.
  unfold well_formed_payload.
  rewrite !andb_true_iff, !negb_true_iff, String.eqb_neq. tauto.
Qed.

(** What the encoder returns is always well formed. *)
Lemma encoder_success_parts (s : string) (part : GenerativePart) :
  fileToGenerativePart (Loaded (ResultString s)) = Resolved part ->
  well_formed_mime (mimeType part) = true
  /\ well_formed_payload (data part) = true.
Proof.
  intros H.
  destruct (encoder_success_inv _ _ H)
    as (rest & whole & _ & Hd & Hdne & _ & Hmne & Hm).
  destruct (match_sound _ _ _ Hm) as (pre & post & Hh & _ & Hsemi & Hlt).
  pose proof (has_char_before_first "," s) as Hk.
  fold (header_of s) in Hk. rewrite Hh, has_char_app in Hk. simpl in Hk.
  rewrite has_char_app in Hk.
  apply orb_false_elim in Hk as [_ Hk].
  apply orb_false_elim in Hk as [Hk _].
  split.
  - apply well_formed_mime_facts. auto.
  - apply well_formed_payload_facts. split; [exact Hdne|].
    rewrite Hd. apply has_char_before_first.
Qed.

(** X1. Whatever string the encoder succeeds on, the MIME type and the data
    it returns are well formed (not empty, no comma, no [;] and no line
    terminator in the MIME type), and encoding the data URL rebuilt from
    them gives the same pair again. *)
Theorem encoder_output_normal_form (s : string) (part : GenerativePart) :
  fileToGenerativePart (Loaded (ResultString s)) = Resolved part ->
  well_formed_mime (mimeType part) = true
  /\ well_formed_payload (data part) = true
  /\ fileToGenerativePart
       (Loaded (ResultString (data_url (mimeType part) (data part))))
     = Resolved part.
Proof.
  intros H. destruct (encoder_success_parts _ _ H) as [Hm Hp].
  split; [exact Hm|]. split; [exact Hp|].
  apply well_formed_mime_facts in Hm as (Hm1 & Hm2 & Hm3 & Hm4).
  apply well_formed_payload_facts in Hp as (Hp1 & Hp2).
  destruct part as [mime payload]. simpl in *.
  exact (onload_of_parts "data" mime "base64" payload eq_refl eq_refl
           Hm1 Hm2 Hm3 Hm4 eq_refl Hp1 Hp2).
Qed.

Lemma encoder_output_normal_form_witness :
  fileToGenerativePart
    (Loaded (ResultString (data_url "text/plain" "SGk=")))
  = Resolved {| mimeType := "text/plain"; data := "SGk=" |}.
Proof.
  exact (proj2 (proj2 (encoder_output_normal_form
                         "x:text/plain;charset=utf-8;base64,SGk=,more"
                         {| mimeType := "text/plain"; data := "SGk=" |}
                         eq_refl))).
Defined.

(** X2. The encoder looks at the header only between its first [:] and the
    next [;]: whatever stands before that [:] (the scheme) and after that
    [;] up to the comma (parameters, the encoding marker), the MIME type
    returned is the text in between and the data is the payload. *)
Theorem encoder_ignores_rest_of_header (pre mime tail payload : string) :
  has_char ":" pre = false -> has_char "," pre = false ->
  well_formed_mime mime = true ->
  has_char "," tail = false ->
  well_formed_payload payload = true ->
  fileToGenerativePart
    (Loaded (ResultString
               (pre ++ ":" ++ mime ++ ";" ++ tail ++ "," ++ payload)))
  = Resolved {| mimeType := mime; data := payload |}.
Proof.
  intros Hpc Hpk Hm Htk Hp.
  apply well_formed_mime_facts in Hm as (Hm1 & Hm2 & Hm3 & Hm4).
  apply well_formed_payload_facts in Hp as (Hp1 & Hp2).
  cbv beta iota delta [fileToGenerativePart].
  change (pre ++ ":" ++ mime ++ ";" ++ tail ++ "," ++ payload)
    with (pre ++ String ":" (mime ++ String ";" (tail ++ String "," payload))).
  now apply onload_of_parts.
Qed.

Lemma encoder_ignores_rest_of_header_witness :
  fileToGenerativePart
    (Loaded (ResultString
               ("blob" ++ ":" ++ "image/svg+xml" ++ ";" ++ "charset=utf-8;utf8"
                ++ "," ++ "<svg/>")))
  = Resolved {| mimeType := "image/svg+xml"; data := "<svg/>" |}.
Proof.
  apply (encoder_ignores_rest_of_header "blob" "image/svg+xml"
           "charset=utf-8;utf8" "<svg/>"); reflexivity.
Defined.

(** How the encoder can reject. *)
Lemma encoder_rejections (read : ReaderOutcome) (e : Reason) :
  fileToGenerativePart read = Rejected e ->
  (exists ev, read = ReadError ev /\ e = HostEvent ev)
  \/ (exists result, read = Loaded result
                     /\ (forall s, result <> ResultString s)
                     /\ e = new_Error msg_read_failed)
  \/ (exists s, read = Loaded (ResultString s)
                /\ (e = new_Error msg_invalid_format
                    \/ e = new_Error msg_no_mime)).
Proof.
  destruct read as [[s | bytes |] | ev].
  - cbv beta iota delta [fileToGenerativePart]. rewrite onload_string.
    intros H. right. right. exists s. split; [reflexivity|].
    destruct (after_first "," s) as [rest|]; [|injection H as <-; auto].
    destruct ((header_of s =? "") || (before_first "," rest =? ""));
      [injection H as <-; auto|].
    destruct (Js.match_colon_group_semicolon (header_of s)) as [[whole g]|];
      [|injection H as <-; auto].
    destruct (g =? ""); [injection H as <-; auto | discriminate].
  - simpl. intros H. injection H as <-. right. left.
    exists (ResultArrayBuffer bytes). repeat split. discriminate.
  - simpl. intros H. injection H as <-. right. left.
    exists ResultNull. repeat split. discriminate.
  - simpl. intros H. injection H as <-. left. eauto.
Qed.

(** X3. Every way the encoder can end: on a read error it rejects with the
    host's event; on a result that is no string, with an [Error] saying
    "Failed to read file as data URL."; on a string, either with one of the
    two format messages or with a pair of well-formed parts.  An [Error] it
    builds never has a cause. *)
Theorem encoder_outcomes (read : ReaderOutcome) :
  match fileToGenerativePart read with
  | Resolved part =>
      (exists s, read = Loaded (ResultString s))
      /\ well_formed_mime (mimeType part) = true
      /\ well_formed_payload (data part) = true
  | Rejected (HostEvent ev) => read = ReadError ev
  | Rejected (ErrorObj msg cause) =>
      cause = None
      /\ (exists result, read = Loaded result)
      /\ In msg [msg_read_failed; msg_invalid_format; msg_no_mime]
      /\ (msg = msg_read_failed <-> forall s, read <> Loaded (ResultString s))
  end.
Proof.
  destruct (fileToGenerativePart read) as [part | e] eqn:H.
  - destruct read as [[s | bytes |] | ev]; try discriminate H.
    destruct (encoder_success_parts _ _ H) as [Hm Hp]. eauto.
  - destruct (encoder_rejections _ _ H)
      as [(ev & -> & ->) | [(r & -> & Hr & ->) | (s & -> & [-> | ->])]].
    + reflexivity.
    + simpl. repeat split; eauto.
      intros _ s Hs. injection Hs as ->. exact (Hr s eq_refl).
    + simpl. repeat split; eauto; try discriminate.
      intros Hs. exfalso. exact (Hs s eq_refl).
    + simpl. repeat split; eauto; try discriminate.
      intros Hs. exfalso. exact (Hs s eq_refl).
Qed.

(** ** More on the Edit Orchestrator *)

Lemma or_else_not_empty (x : option string) (d : string) :
  d <> "" -> Js.or_else x d <> "".
Proof.
  intros Hd. destruct x as [s|]; simpl; [|exact Hd].
  destruct (s =? "") eqn:Hs; [exact Hd | now apply String.eqb_neq].
Qed.

(** A step from a settled session: either it stays settled, with the same
    log and no new error, or it is an accepted click on Generate. *)
Lemma settled_step_cases (w w' : World) (e : Event) :
  Settled_state w -> step w e = Some w' ->
  (Settled_state w' /\ calls w' = calls w
   /\ (error (ui w') = error (ui w) \/ error (ui w') = None))
  \/ (e = ClickGenerate /\ generate_disabled (ui w) = false
      /\ w' = invoke_handleGenerate w).
Proof.
  intros Hs H. pose proof Hs as (Hl & Hin & Hone & Hne).
  destruct e; simpl in H.
  - injection H as <-. left. unfold Settled_state.
    open_world w. subst. phase_facts.
  - destruct (previewReads w) eqn:Hn; [discriminate|].
    injection H as <-. left. unfold Settled_state.
    open_world w. subst. phase_facts.
  - injection H as <-. left. unfold Settled_state.
    open_world w. subst. phase_facts.
  - destruct (generate_disabled (ui w)) eqn:Hg; injection H as <-.
    + left. auto.
    + right. auto.
  - destruct (download_rendered (ui w)); injection H as <-; left;
      [unfold Settled_state; simpl; phase_facts | auto].
  - rewrite Hin in H. destruct i; discriminate H.
  - rewrite Hin in H. destruct i; discriminate H.
  - rewrite Hin in H. destruct i; discriminate H.
Qed.

(** A step during [Encoding]: a bystander, or the end of the encoder's
    read. *)
Lemma encoding_step_cases (instruction : string) (w w' : World) (e : Event) :
  Encoding instruction w -> step w e = Some w' ->
  (Encoding instruction w' /\ calls w' = calls w)
  \/ (exists read, e = EncoderReadEnds 0 read).
Proof.
  intros Hb H.
  destruct (bystander e) eqn:He.
  - left. exact (bystander_keeps_busy _ _ _ _ Hb He H).
  - right. pose proof Hb as (_ & _ & _ & _ & Hin).
    destruct e; try discriminate He; simpl in H; rewrite Hin in H.
    + destruct (nth_error [AwaitingEncoder (after_encoder instruction)] i)
        as [[k|k]|] eqn:Hn; try discriminate.
      apply nth_error_singleton in Hn as [-> _]. eauto.
    + destruct (nth_error [AwaitingEncoder (after_encoder instruction)] i)
        as [[k|k]|] eqn:Hn; try discriminate.
      apply nth_error_singleton in Hn as [_ Hk]. discriminate Hk.
    + destruct (nth_error [AwaitingEncoder (after_encoder instruction)] i)
        as [[k|k]|] eqn:Hn; try discriminate.
      apply nth_error_singleton in Hn as [_ Hk]. discriminate Hk.
Qed.

(** A step during [Calling]: a bystander, or the settling of the call. *)
Lemma calling_step_cases (imagePart : GenerativePart) (w w' : World)
    (e : Event) :
  Calling imagePart w -> step w e = Some w' ->
  (Calling imagePart w' /\ calls w' = calls w)
  \/ (exists outcome, e = ServiceSettles 0 outcome)
  \/ e = ServiceRejectsNullish 0.
Proof.
  intros Hb H.
  destruct (bystander e) eqn:He.
  - left. exact (bystander_keeps_busy _ _ _ _ Hb He H).
  - right. pose proof Hb as (_ & _ & _ & _ & Hin).
    destruct e; try discriminate He; simpl in H; rewrite Hin in H.
    + destruct (nth_error [AwaitingService (after_service imagePart)] i)
        as [[k|k]|] eqn:Hn; try discriminate.
      apply nth_error_singleton in Hn as [_ Hk]. discriminate Hk.
    + destruct (nth_error [AwaitingService (after_service imagePart)] i)
        as [[k|k]|] eqn:Hn; try discriminate.
      apply nth_error_singleton in Hn as [-> _]. eauto.
    + destruct (nth_error [AwaitingService (after_service imagePart)] i)
        as [[k|k]|] eqn:Hn; try discriminate.
      apply nth_error_singleton in Hn as [-> _]. auto.
Qed.

Lemma busy_no_error (pending : Suspended) (w : World) :
  Busy pending w -> forall msg, error (ui w) = Some msg -> msg <> "".
Proof. intros (_ & _ & He & _) msg H. congruence. Qed.

Lemma accounted_initial : Accounted initial_world.
Proof.
  split; [discriminate|]. left. split; [|constructor].
  unfold Settled_state. simpl. phase_facts.
Qed.

Lemma accounted_step (w w' : World) (e : Event) :
  Accounted w -> step w e = Some w' -> Accounted w'.
Proof.
  intros [Herr [[Hs Hlog] | [(p & log & file & Hp & Hb & Hcalls & Hlog)
                           | (part & Hb & Hlog)]]] H.
  - destruct (settled_step_cases _ _ _ Hs H)
      as [(Hs' & Hc & He) | (-> & Hen & ->)].
    + split.
      * intros msg Hm. destruct He as [He | He]; rewrite He in Hm;
          [exact (Herr msg Hm) | discriminate].
      * left. rewrite Hc. auto.
    + destruct Hs as (_ & Hin & _).
      destruct (click_starts_encoding w Hin Hen) as (_ & Hb & file & _ & Hc).
      destruct (generate_enabled _ Hen) as (_ & _ & Hp).
      split; [exact (busy_no_error _ _ Hb)|].
      right. left. exists (prompt (ui w)), (calls w), file. auto.
  - destruct (encoding_step_cases _ _ _ _ Hb H) as [[Hb' Hc] | [read ->]].
    + split; [exact (busy_no_error _ _ Hb')|].
      right. left. exists p, log, file. rewrite Hc. auto.
    + destruct (encoder_settles p w read Hb) as (w1 & H1 & Hout).
      assert (w1 = w') by congruence. subst w1.
      destruct (fileToGenerativePart read) as [part | r] eqn:Hread.
      * destruct Hout as [Hcall Hc].
        split; [exact (busy_no_error _ _ Hcall)|].
        right. right. exists part. split; [exact Hcall|].
        rewrite Hc, Hcalls, <- app_assoc. simpl.
        destruct read as [[s | bytes |] | ev]; try discriminate Hread.
        destruct (encoder_success_parts _ _ Hread) as [Hm Hd].
        now constructor.
      * destruct Hout as (Hs' & He & _ & _ & _ & Hc). split.
        -- intros msg Hm. rewrite He in Hm. injection Hm as <-.
           apply or_else_not_empty. discriminate.
        -- left. split; [exact Hs'|]. rewrite Hc, Hcalls. now constructor.
  - destruct (calling_step_cases _ _ _ _ Hb H)
      as [[Hb' Hc] | [[outcome ->] | ->]].
    + split; [exact (busy_no_error _ _ Hb')|].
      right. right. exists part. rewrite Hc. auto.
    + destruct (service_settles part w outcome Hb)
        as (w1 & H1 & Hs' & _ & _ & Hc & Hout).
      assert (w1 = w') by congruence. subst w1. split.
      * intros msg Hm. destruct outcome as [b64 | r].
        -- destruct Hout as [_ He]. congruence.
        -- destruct Hout as [He _]. rewrite He in Hm. injection Hm as <-.
           apply or_else_not_empty. discriminate.
      * left. rewrite Hc. auto.
    + destruct (service_rejects_nullish part w Hb)
        as (w1 & H1 & Hs' & _ & _ & Hc & He & _).
      assert (w1 = w') by congruence. subst w1. split.
      * intros msg Hm. congruence.
      * left. rewrite Hc. auto.
Qed.

Lemma reachable_accounted (w : World) : reachable w -> Accounted w.
Proof.
  induction 1 as [|w e w' _ IH Hstep]; [apply accounted_initial|].
  exact (accounted_step _ _ _ IH Hstep).
Qed.

(** The log of a reachable session is made of cycles. *)
Lemma reachable_cycles (w : World) : reachable w -> Cycles (calls w).
Proof.
  intros Hr.
  destruct (reachable_accounted w Hr)
    as [_ [[_ Hlog] | [(p & log & file & _ & _ & -> & Hlog) | (part & _ & Hlog)]]];
    [exact Hlog | now constructor | exact Hlog].
Qed.

Lemma cycles_filled (log : list Call) : Cycles log -> Forall call_filled log.
Proof.
  induction 1 as [| log file _ IH | log file part p _ IH Hd Hm Hp].
  - constructor.
  - apply Forall_app. split; [exact IH|]. repeat constructor.
  - apply Forall_app. split; [exact IH|]. repeat constructor; auto.
Qed.

(** X4. In every reachable session, every call of the service that was made
    carried well-formed image data and MIME type (not empty, no comma, no
    [;] in the MIME type) and an instruction that is not empty. *)
Theorem service_called_with_filled_arguments (w : World)
    (base64Data mime instruction : string) :
  reachable w ->
  In (call_editImageWithGemini base64Data mime instruction) (calls w) ->
  well_formed_payload base64Data = true
  /\ well_formed_mime mime = true
  /\ instruction <> "".
Proof.
  intros Hr Hin.
  pose proof (cycles_filled _ (reachable_cycles w Hr)) as Hall.
  rewrite Forall_forall in Hall. exact (Hall _ Hin).
Qed.

Lemma service_called_with_filled_arguments_witness :
  well_formed_payload "LzlqLzRB" = true
  /\ well_formed_mime "image/jpeg" = true
  /\ "make it neon" <> "".
Proof.
  apply (service_called_with_filled_arguments success_world "LzlqLzRB"
           "image/jpeg" "make it neon" success_world_reachable).
  simpl. auto.
Defined.

Lemma follows_encoder_snoc_encoder (log : list Call) (file : File) :
  forall b, service_follows_encoder b log = true ->
            service_follows_encoder b (log ++ [call_fileToGenerativePart file])
            = true.
Proof.
  induction log as [|c log IH]; intros b H; simpl; [reflexivity|].
  destruct c; simpl in H.
  - now apply IH.
  - apply andb_true_iff in H as [-> H]. simpl. now apply IH.
Qed.

Lemma follows_encoder_snoc_cycle (log : list Call) (file : File)
    (d m p : string) :
  forall b, service_follows_encoder b log = true ->
            service_follows_encoder b
              (log ++ [call_fileToGenerativePart file;
                       call_editImageWithGemini d m p]) = true.
Proof.
  induction log as [|c log IH]; intros b H; simpl; [reflexivity|].
  destruct c; simpl in H.
  - now apply IH.
  - apply andb_true_iff in H as [-> H]. simpl. now apply IH.
Qed.

Lemma cycles_counts (log : list Call) :
  Cycles log ->
  service_follows_encoder false log = true
  /\ service_calls log <= encoder_calls log.
Proof.
  unfold service_calls, encoder_calls.
  induction 1 as [| log file _ [IH1 IH2] | log file part p _ [IH1 IH2] _ _ _].
  - split; [reflexivity | apply Nat.le_refl].
  - split; [now apply follows_encoder_snoc_encoder|].
    rewrite !filter_app, !length_app. simpl. lia.
  - split; [now apply follows_encoder_snoc_cycle|].
    rewrite !filter_app, !length_app. simpl. lia.
Qed.

(** X5. In the log of every reachable session each call of the service
    comes directly after a call of the encoder, so the service is never
    called before an encoding, nor twice for one; and it was called at most
    as often as the encoder. *)
Theorem service_calls_follow_encoder_calls (w : World) :
  reachable w ->
  service_follows_encoder false (calls w) = true
  /\ service_calls (calls w) <= encoder_calls (calls w).
Proof.
  intros Hr. apply cycles_counts. exact (reachable_cycles w Hr).
Qed.

Lemma service_calls_follow_encoder_calls_witness :
  service_follows_encoder false (calls success_world) = true
  /\ service_calls (calls success_world) <= encoder_calls (calls success_world).
Proof.
  exact (service_calls_follow_encoder_calls success_world
           success_world_reachable).
Defined.

(** X6. A click on Generate never reaches the validation branch of
    [handleGenerate]: the button is disabled in exactly the cases that
    branch tests, so the click either changes nothing or opens a busy
    window with one call of the encoder, and stores no error. *)
Theorem button_never_reaches_validation (w w' : World) :
  step w ClickGenerate = Some w' ->
  (generate_disabled (ui w) = true /\ w' = w)
  \/ (generate_disabled (ui w) = false
      /\ isLoading (ui w') = true
      /\ error (ui w') = None
      /\ editedImageData (ui w') = None
      /\ exists file,
           originalImageFile (ui w) = Some file
           /\ calls w' = (calls w ++ [call_fileToGenerativePart file])%list).
Proof.
  simpl. destruct (generate_disabled (ui w)) eqn:Hen; intros H;
    injection H as <-; [left; auto|]. right.
  destruct (generate_enabled _ Hen) as (_ & (file & Hf) & Hp).
  unfold invoke_handleGenerate, invoke.
  rewrite (handleGenerate_valid _ file Hf Hp). simpl.
  repeat split. eauto.
Qed.

Lemma button_never_reaches_validation_witness :
  isLoading (ui (invoke_handleGenerate ready_world)) = true
  /\ error (ui (invoke_handleGenerate ready_world)) = None.
Proof.
  destruct (button_never_reaches_validation ready_world
              (invoke_handleGenerate ready_world) eq_refl)
    as [[H _] | (_ & Hl & He & _)].
  - discriminate H.
  - exact (conj Hl He).
Defined.

(** X7. In every reachable session the output column shows exactly one
    block: the loader while loading; else the error box when an error is
    stored; else the result when one is held; else the placeholder. *)
Theorem output_shows_one_block (w : World) :
  reachable w ->
  render_output (ui w)
  = [ if isLoading (ui w) then LoaderBlock
      else match error (ui w), editedImageData (ui w) with
           | Some msg, _ => ErrorBlock msg
           | None, Some url => ResultBlock url
           | None, None => PlaceholderBlock
           end ].
Proof.
  intros Hr. unfold render_output.
  destruct (reachable_accounted w Hr)
    as [Herr [[(Hl & _ & _ & Hurl) _]
             | [(p & log & file & _ & (Hl & Hd & He & _) & _)
               | (part & (Hl & Hd & He & _) & _)]]].
  - rewrite Hl. simpl.
    destruct (error (ui w)) as [msg|] eqn:He.
    + simpl. rewrite (eqb_empty_false _ (Herr msg eq_refl)). reflexivity.
    + simpl. destruct (editedImageData (ui w)) as [url|] eqn:Hd; simpl.
      * rewrite (eqb_empty_false _ (Hurl url eq_refl)). reflexivity.
      * reflexivity.
  - rewrite Hl, He, Hd. reflexivity.
  - rewrite Hl, He, Hd. reflexivity.
Qed.

Lemma output_shows_one_block_witness :
  render_output (ui success_world)
  = [ResultBlock "data:image/jpeg;base64,iVBORw0KG"].
Proof.
  exact (output_shows_one_block success_world success_world_reachable).
Defined.

(** A result is held only in a settled session without error. *)
Lemma reachable_result_settled (w : World) (url : string) :
  reachable w -> editedImageData (ui w) = Some url ->
  isLoading (ui w) = false /\ error (ui w) = None /\ url <> "".
Proof.
  intros Hr Hd.
  destruct (reachable_phase w Hr)
    as [(Hl & _ & Hone & Hne) | [[? Hb] | [? Hb]]].
  - repeat split; [exact Hl | | exact (Hne url Hd)].
    destruct Hone as [Hone | Hone]; [congruence | exact Hone].
  - destruct Hb as (_ & Hnone & _). congruence.
  - destruct Hb as (_ & Hnone & _). congruence.
Qed.

(** X8. In every reachable session the Download button is rendered exactly
    when a result is held; a click on it then adds one download of that
    very string to the document and changes nothing else, and a click where
    no result is held changes nothing at all. *)
Theorem download_offered_iff_result (w : World) (now : Z) :
  reachable w ->
  (download_rendered (ui w) = true
   <-> exists url, editedImageData (ui w) = Some url)
  /\ (forall url, editedImageData (ui w) = Some url ->
        step w (ClickDownload now)
        = Some (mkWorld (ui w) (inflight w) (previewReads w) (calls w)
                  (console w)
                  (dom w ++ [ createElement_a; set_href url;
                              set_download (download_name now);
                              appendChild; click; removeChild ])))
  /\ (editedImageData (ui w) = None -> step w (ClickDownload now) = Some w).
Proof.
  intros Hr.
  assert (Hshown : forall url, editedImageData (ui w) = Some url ->
                               download_rendered (ui w) = true).
  { intros url Hd.
    destruct (reachable_result_settled w url Hr Hd) as (Hl & He & Hne).
    unfold download_rendered. rewrite Hl, He, Hd. simpl.
    now rewrite (eqb_empty_false _ Hne). }
  split; [|split].
  - split.
    + unfold download_rendered. intros H.
      destruct (editedImageData (ui w)) as [url|]; [eauto|].
      simpl in H. rewrite andb_false_r in H. discriminate.
    + intros [url Hd]. exact (Hshown url Hd).
  - intros url Hd. simpl. rewrite (Hshown url Hd).
    destruct (reachable_result_settled w url Hr Hd) as (_ & _ & Hne).
    unfold handleDownload. rewrite Hd. simpl.
    rewrite (eqb_empty_false _ Hne). reflexivity.
  - intros Hd. simpl. unfold download_rendered. rewrite Hd. simpl.
    rewrite andb_false_r. reflexivity.
Qed.

Lemma download_offered_iff_result_witness :
  download_rendered (ui success_world) = true
  /\ step success_world (ClickDownload 1730505600000)
     = Some (mkWorld (ui success_world) [] 1 (calls success_world) []
               [ createElement_a;
                 set_href "data:image/jpeg;base64,iVBORw0KG";
                 set_download "h4x_edit_1730505600000.png";
                 appendChild; click; removeChild ]).
Proof.
  destruct (download_offered_iff_result success_world 1730505600000
              success_world_reachable) as (Hiff & Hclick & _).
  split.
  - apply Hiff. eexists. reflexivity.
  - exact (Hclick "data:image/jpeg;base64,iVBORw0KG" eq_refl).
Defined.

Lemma select_file_effect (w w' : World) (file : File) :
  step w (SelectFile file) = Some w' ->
  originalImageFile (ui w') = Some file
  /\ editedImageData (ui w') = None
  /\ error (ui w') = None
  /\ isLoading (ui w') = isLoading (ui w)
  /\ prompt (ui w') = prompt (ui w)
  /\ inflight w' = inflight w
  /\ calls w' = calls w.
Proof.
  simpl. intros H. injection H as <-. open_world w.
  rewrite app_nil_r. repeat split.
Qed.

Lemma service_settles_keeps_file (imagePart : GenerativePart) (w w' : World)
    (outcome : Settled string) :
  Calling imagePart w -> step w (ServiceSettles 0 outcome) = Some w' ->
  originalImageFile (ui w') = originalImageFile (ui w).
Proof.
  intros (_ & _ & _ & _ & Hin). simpl. rewrite Hin. simpl.
  intros H. injection H as <-. unfold continue.
  destruct outcome; open_world w; reflexivity.
Qed.

(** X9. Selecting another file while a request is outstanding does not
    cancel it: when the service then resolves, the session holds the newly
    selected file together with a result made from the file that was
    selected at the click (its encoding's MIME type, the service's
    payload). *)
Theorem stale_response_overwrites (w : World) (before after : list Event)
    (read : ReaderOutcome) (imagePart : GenerativePart)
    (resultBase64 : string) (later : File) :
  reachable w -> generate_disabled (ui w) = false ->
  forallb bystander before = true -> forallb bystander after = true ->
  fileToGenerativePart read = Resolved imagePart ->
  let trace := (ClickGenerate :: before ++ [EncoderReadEnds 0 read] ++ after
                ++ [SelectFile later;
                    ServiceSettles 0 (Resolved resultBase64)])%list in
  (forallb user_event before = true -> forallb user_event after = true ->
   exists w', steps w trace = Some w')
  /\ forall w', steps w trace = Some w' ->
       originalImageFile (ui w') = Some later
       /\ editedImageData (ui w')
          = Some ("data:" ++ mimeType imagePart ++ ";base64," ++ resultBase64)
       /\ isLoading (ui w') = false
       /\ exists file,
            originalImageFile (ui w) = Some file
            /\ calls w'
               = (calls w
                  ++ [call_fileToGenerativePart file;
                      call_editImageWithGemini (data imagePart)
                        (mimeType imagePart) (prompt (ui w))])%list.
Proof.
  intros Hr Hen Hb Ha Henc trace. subst trace.
  assert (Htrace :
    (ClickGenerate :: before ++ [EncoderReadEnds 0 read] ++ after
     ++ [SelectFile later; ServiceSettles 0 (Resolved resultBase64)])%list
    = ((ClickGenerate :: before)
       ++ EncoderReadEnds 0 read
          :: ((after ++ [SelectFile later])
              ++ [ServiceSettles 0 (Resolved resultBase64)]))%list).
  { simpl. do 2 f_equal. rewrite <- app_assoc. reflexivity. }
  assert (Ha' : forallb bystander (after ++ [SelectFile later]) = true).
  { rewrite forallb_app, Ha. reflexivity. }
  split.
  - intros Hub Hua.
    assert (Hua' : forallb user_event (after ++ [SelectFile later]) = true).
    { rewrite forallb_app, Hua. reflexivity. }
    destruct (cycle_reaches_encoder w before Hr Hen Hub) as (w1 & H1 & He1).
    destruct (encoder_settles _ w1 read He1) as (w2 & H2 & Hout).
    rewrite Henc in Hout. destruct Hout as [Hcall _].
    destruct (users_through_busy _ _ _ Hcall Hua') as (w3 & H3 & Hb3).
    destruct (service_settles imagePart w3 (Resolved resultBase64) Hb3)
      as (w4 & H4 & _).
    exists w4. rewrite Htrace.
    rewrite steps_app, H1. cbn [steps]. rewrite H2.
    rewrite steps_app, H3. cbn [steps]. rewrite H4. reflexivity.
  - intros w' H. rewrite Htrace in H.
    destruct (cycle_until_encoder _ _ _ _ _ Hr Hen Hb H)
      as (w1 & w2 & file & He1 & Hf & Hc1 & H2 & Hrest).
    destruct (encoder_settles _ w1 read He1) as (w2' & H2' & Hout).
    rewrite Henc in Hout. destruct Hout as [Hcall Hc2].
    assert (w2' = w2) by congruence. subst w2'.
    destruct (steps_through_busy _ _ _ _ _ _ Hcall Ha' Hrest)
      as (w3 & w4 & H3 & Hb3 & Hc3 & H4 & Hend).
    simpl in Hend. injection Hend as <-.
    rewrite steps_app in H3.
    destruct (steps w2 after) as [wa|]; [|discriminate].
    cbn [steps] in H3.
    destruct (step wa (SelectFile later)) as [wb|] eqn:Hsel; [|discriminate].
    injection H3 as <-.
    destruct (select_file_effect _ _ _ Hsel) as (Hlater & _).
    pose proof (service_settles_keeps_file _ _ _ _ Hb3 H4) as Hkeep.
    destruct (service_settles imagePart wb (Resolved resultBase64) Hb3)
      as (w4' & H4' & (Hl & _) & _ & _ & Hc4 & Hd & _).
    assert (w4' = w4) by congruence. subst w4'.
    split; [congruence|]. split; [exact Hd|]. split; [exact Hl|].
    exists file. split; [exact Hf|].
    rewrite Hc4, Hc3, Hc2, Hc1, <- app_assoc. reflexivity.
Qed.

Lemma stale_response_overwrites_witness :
  exists w',
    steps ready_world
      [ClickGenerate; EncoderReadEnds 0 photo_read; SelectFile sketch;
       ServiceSettles 0 (Resolved "iVBORw0KG")] = Some w'
    /\ originalImageFile (ui w') = Some sketch
    /\ editedImageData (ui w') = Some "data:image/jpeg;base64,iVBORw0KG".
Proof.
  destruct (stale_response_overwrites ready_world [] [] photo_read
              {| mimeType := "image/jpeg"; data := "LzlqLzRB" |} "iVBORw0KG"
              sketch ready_world_reachable eq_refl eq_refl eq_refl eq_refl)
    as [Hruns Hends].
  destruct (Hruns eq_refl eq_refl) as [w' Hw'].
  exists w'. split; [exact Hw'|].
  destruct (Hends w' Hw') as (Hf & Hd & _).
  exact (conj Hf Hd).
Defined.

(** X10. If the encoder rejects, the cycle ends without any call of the
    service, and the error stored is one of four fixed messages: the three
    of the encoder, or the generic one when the read itself errored. *)
Theorem encoder_failure_skips_service (w : World) (before : list Event)
    (read : ReaderOutcome) (e : Reason) :
  reachable w -> generate_disabled (ui w) = false ->
  forallb bystander before = true ->
  fileToGenerativePart read = Rejected e ->
  forall w',
    steps w (ClickGenerate :: before ++ [EncoderReadEnds 0 read]) = Some w' ->
    (exists file,
       originalImageFile (ui w) = Some file
       /\ calls w' = (calls w ++ [call_fileToGenerativePart file])%list)
    /\ service_calls (calls w') = service_calls (calls w)
    /\ inflight w' = []
    /\ exists msg, error (ui w') = Some msg
                   /\ In msg encoder_failure_messages
                   /\ (msg = msg_unknown <-> exists ev, read = ReadError ev).
Proof.
  intros Hr Hen Hb Henc w' H.
  destruct (cycle_until_encoder _ _ _ _ _ Hr Hen Hb H)
    as (w1 & w2 & file & He1 & Hf & Hc1 & H2 & Hend).
  simpl in Hend. injection Hend as <-.
  destruct (encoder_settles _ w1 read He1) as (w2' & H2' & Hout).
  rewrite Henc in Hout. assert (w2' = w2) by congruence. subst w2'.
  destruct Hout as ((_ & Hin & _) & Herr & _ & _ & _ & Hc2).
  assert (Hcalls : calls w2 = (calls w ++ [call_fileToGenerativePart file])%list)
    by congruence.
  split; [eauto|]. split.
  { rewrite Hcalls. unfold service_calls.
    rewrite filter_app, length_app. simpl. lia. }
  split; [exact Hin|].
  exists (Js.or_else (message e) msg_unknown). split; [exact Herr|].
  unfold encoder_failure_messages.
  destruct (encoder_rejections _ _ Henc)
    as [(ev & -> & ->) | [(r & -> & _ & ->) | (s & -> & [-> | ->])]]; simpl.
  - split; [tauto|]. split; eauto.
  - split; [tauto|]. split; [discriminate|]. intros [ev Hev]. discriminate.
  - split; [tauto|]. split; [discriminate|]. intros [ev Hev]. discriminate.
  - split; [tauto|]. split; [discriminate|]. intros [ev Hev]. discriminate.
Qed.

Lemma encoder_failure_skips_service_witness :
  exists w',
    steps ready_world
      [ClickGenerate; TypePrompt "make it bright";
       EncoderReadEnds 0 (Loaded (ResultString "not a data URL"))] = Some w'
    /\ error (ui w') = Some msg_invalid_format
    /\ service_calls (calls w') = 0.
Proof.
  eexists. split; [reflexivity|].
  destruct (encoder_failure_skips_service ready_world
              [TypePrompt "make it bright"]
              (Loaded (ResultString "not a data URL"))
              (new_Error msg_invalid_format)
              ready_world_reachable eq_refl eq_refl eq_refl _ eq_refl)
    as (_ & Hs & _).
  split; [reflexivity | exact Hs].
Defined.

(** X11. A change of the file input and a drop do the same to the session:
    with no file list or an empty one nothing is selected and the session
    is left as it is; otherwise the first file alone is selected, any
    result and error are cleared, and the output column shows the loader if
    a request is outstanding, the placeholder if not.  A drop also prevents
    the browser's default and stops the event, file or no file. *)
Theorem uploader_selects_first_file (w : World) (files : option (list File)) :
  perform (handleFileChange files) w = perform (handleDrop files) w
  /\ (exists rest, handleDrop files
                   = (preventDefault :: stopPropagation :: rest)%list)
  /\ (first_file files = None -> perform (handleDrop files) w = Some w)
  /\ (forall file others, files = Some (file :: others) ->
        exists w',
          perform (handleDrop files) w = Some w'
          /\ step w (SelectFile file) = Some w'
          /\ originalImageFile (ui w') = Some file
          /\ calls w' = calls w /\ inflight w' = inflight w
          /\ render_output (ui w')
             = [if isLoading (ui w) then LoaderBlock else PlaceholderBlock]).
Proof.
  split; [|split; [|split]].
  - unfold handleFileChange, handleDrop.
    destruct (first_file files); reflexivity.
  - unfold handleDrop. eauto.
  - intros Hnone. unfold handleDrop. rewrite Hnone. reflexivity.
  - intros file others ->.
    destruct (step w (SelectFile file)) as [w'|] eqn:Hsel;
      [|discriminate Hsel].
    exists w'. unfold handleDrop. cbn [first_file perform]. rewrite Hsel.
    destruct (select_file_effect _ _ _ Hsel)
      as (Hf & Hd & He & Hl & _ & Hin & Hc).
    repeat split; auto.
    unfold render_output. rewrite Hl, He, Hd.
    destruct (isLoading (ui w)); reflexivity.
Qed.

Lemma append_length (a b : string) :
  String.length (a ++ b) = String.length a + String.length b.
Proof. induction a as [|x a IH]; simpl; [reflexivity | now rewrite IH]. Qed.

Lemma append_cancel_r (a b c : string) : a ++ c = b ++ c -> a = b.
Proof.
  revert b. induction a as [|x a IH]; intros [|y b] H; simpl in H.
  - reflexivity.
  - apply (f_equal String.length) in H. simpl in H.
    rewrite append_length in H. lia.
  - apply (f_equal String.length) in H. simpl in H.
    rewrite append_length in H. lia.
  - injection H as -> H. now rewrite (IH b H).
Qed.

(** X12. The name of a download determines the millisecond it was made at:
    two downloads get the same name exactly when [Date.now()] gave the same
    value, and the timestamp can be read back from the name. *)
Theorem download_name_tells_time (now now' : Z) :
  (download_name now = download_name now' <-> now = now')
  /\ exists stamp,
       download_name now = "h4x_edit_" ++ stamp ++ ".png"
       /\ option_map Z.of_int (NilZero.int_of_string stamp) = Some now.
Proof.
  split.
  - split; [|now intros ->].
    unfold download_name. intros H. simpl in H.
    injection H as H. apply append_cancel_r in H.
    pose proof (timestamp_round_trip now) as Hn.
    rewrite H, timestamp_round_trip in Hn. now injection Hn.
  - exists (Js.number_to_string now). split; [reflexivity|].
    apply timestamp_round_trip.
Qed.

Lemma nth_error_singleton_index {A : Type} (a : A) (i : nat) :
  i <> 0 -> nth_error [a] i = None.
Proof. destruct i as [|[|i]]; [contradiction | reflexivity | reflexivity]. Qed.

Ltac frame_facts :=
  repeat split; first [left; reflexivity | right; eexists; reflexivity].

(** What a step leaves alone, whatever the phase. *)
Lemma phase_step_frame (w w' : World) (e : Event) :
  Phase w -> step w e = Some w' ->
  (originalImageFile (ui w') = originalImageFile (ui w)
   \/ exists file, e = SelectFile file)
  /\ (prompt (ui w') = prompt (ui w) \/ exists text, e = TypePrompt text)
  /\ (originalImageDataUrl (ui w') = originalImageDataUrl (ui w)
      \/ exists result, e = PreviewLoadEnd result).
Proof.
  intros Hphase H.
  assert (Hclick : forall w0, step w0 ClickGenerate = Some w' ->
            originalImageFile (ui w') = originalImageFile (ui w0)
            /\ prompt (ui w') = prompt (ui w0)
            /\ originalImageDataUrl (ui w') = originalImageDataUrl (ui w0)).
  { intros w0 H0. simpl in H0.
    destruct (generate_disabled (ui w0)) eqn:Hen; injection H0 as <-; [auto|].
    destruct (generate_enabled _ Hen) as (_ & (file & Hf) & Hp).
    unfold invoke_handleGenerate, invoke.
    rewrite (handleGenerate_valid _ file Hf Hp). simpl. auto. }
  destruct e.
  - simpl in H. injection H as <-. open_world w. frame_facts.
  - simpl in H. destruct (previewReads w); [discriminate|].
    injection H as <-. open_world w. frame_facts.
  - simpl in H. injection H as <-. open_world w. frame_facts.
  - destruct (Hclick w H) as (? & ? & ?). auto.
  - simpl in H. destruct (download_rendered (ui w)); injection H as <-; auto.
  - destruct Hphase as [(_ & Hin & _) | [[p Hb] | [part Hb]]].
    + simpl in H. rewrite Hin in H. destruct i; discriminate H.
    + destruct (encoding_step_cases _ _ _ _ Hb H) as [[Hb' _] | [read' Heq]].
      * destruct Hb as (_ & _ & _ & _ & Hin).
        simpl in H. rewrite Hin in H.
        destruct i as [|i]; [|rewrite nth_error_singleton_index in H;
                               [discriminate | discriminate]].
        simpl in H. injection H as <-. unfold continue.
        destruct (fileToGenerativePart read); open_world w; auto.
      * injection Heq as -> ->.
        destruct Hb as (_ & _ & _ & _ & Hin).
        simpl in H. rewrite Hin in H. simpl in H.
        injection H as <-. unfold continue.
        destruct (fileToGenerativePart read'); open_world w; auto.
    + destruct Hb as (_ & _ & _ & _ & Hin).
      simpl in H. rewrite Hin in H.
      destruct i as [|[|i]]; discriminate H.
  - destruct Hphase as [(_ & Hin & _) | [[p Hb] | [part Hb]]].
    + simpl in H. rewrite Hin in H. destruct i; discriminate H.
    + destruct Hb as (_ & _ & _ & _ & Hin).
      simpl in H. rewrite Hin in H.
      destruct i as [|[|i]]; discriminate H.
    + destruct Hb as (_ & _ & _ & _ & Hin).
      simpl in H. rewrite Hin in H.
      destruct i as [|[|i]]; try discriminate H.
      simpl in H. injection H as <-. unfold continue.
      destruct outcome; open_world w; auto.
  - destruct Hphase as [(_ & Hin & _) | [[p Hb] | [part Hb]]].
    + simpl in H. rewrite Hin in H. destruct i; discriminate H.
    + destruct Hb as (_ & _ & _ & _ & Hin).
      simpl in H. rewrite Hin in H.
      destruct i as [|[|i]]; discriminate H.
    + destruct Hb as (_ & _ & _ & _ & Hin).
      simpl in H. rewrite Hin in H.
      destruct i as [|[|i]]; try discriminate H.
      simpl in H. injection H as <-. unfold continue.
      open_world w; auto.
Qed.

(** X13. In a reachable session nothing but the user's own gestures changes
    the inputs: the selected file changes only when a file is selected, the
    prompt only when it is typed, and the preview only when a preview read
    ends.  In particular no outcome of a generate cycle, failure included,
    touches them. *)
Theorem inputs_change_only_by_their_events (w w' : World) (e : Event) :
  reachable w -> step w e = Some w' ->
  (originalImageFile (ui w') = originalImageFile (ui w)
   \/ exists file, e = SelectFile file)
  /\ (prompt (ui w') = prompt (ui w) \/ exists text, e = TypePrompt text)
  /\ (originalImageDataUrl (ui w') = originalImageDataUrl (ui w)
      \/ exists result, e = PreviewLoadEnd result).
Proof.
  intros Hr H. exact (phase_step_frame w w' e (reachable_phase w Hr) H).
Qed.

Lemma encoding_world_reachable : reachable (invoke_handleGenerate ready_world).
Proof.
  exact (reachable_step ready_world ClickGenerate _ ready_world_reachable
           eq_refl).
Qed.

Lemma inputs_change_only_by_their_events_witness :
  exists w',
    step (invoke_handleGenerate ready_world)
         (EncoderReadEnds 0 (ReadError (mkProgressEvent "error" 0 0)))
    = Some w'
    /\ originalImageFile (ui w') = Some photo
    /\ prompt (ui w') = "make it neon".
Proof.
  eexists. split; [reflexivity|].
  destruct (inputs_change_only_by_their_events
              (invoke_handleGenerate ready_world) _
              (EncoderReadEnds 0 (ReadError (mkProgressEvent "error" 0 0)))
              encoding_world_reachable eq_refl)
    as ([Hf | [f Hf]] & [Hp | [t Hp]] & _); try discriminate.
  split; [rewrite Hf | rewrite Hp]; reflexivity.
Defined.


